(** * mdlayher/pidfd: a handle on a Linux process through its pidfd

    A shallow embedding of package [pidfd] (pidfd.go, pidfd_linux.go): the
    [Error] type and its [errors.Is] support, [open], [sendSignal], [wrap],
    and [wait] with its cancellation goroutine, followed by the properties
    the specification states about them.

    The standard library, golang.org/x/sys/unix, mdlayher/socket and the
    kernel are the package's environment.  What the package needs of them is
    modelled in the modules [Unix], [Go], [Socket] and [Kernel].

    [wait] runs two goroutines.  It is embedded as a transition system:
    a state holds the variables of [wait], where each goroutine stands and
    what they share (the derived context, the wait group, the descriptor,
    the kernel's view of the process); [step] makes one step of a
    goroutine or of the environment, and a schedule is a list of such
    steps.  A property of [wait] is a property of every schedule. *)

From Stdlib Require Import ZArith List String Bool Lia.
Import ListNotations.
Open Scope Z_scope.

(** ** golang.org/x/sys/unix: the constants the package names *)

Module Unix.

Definition EPERM : Z := 1.
Definition ENOENT : Z := 2.
Definition ESRCH : Z := 3.
Definition EBADF : Z := 9.
Definition ECHILD : Z := 10.
Definition EAGAIN : Z := 11.
Definition EACCES : Z := 13.
Definition EEXIST : Z := 17.
Definition EINVAL : Z := 22.
Definition EMFILE : Z := 24.
Definition ENOTEMPTY : Z := 39.

Definition PIDFD_NONBLOCK : Z := 0x800.
Definition P_PIDFD : Z := 0x3.
Definition WEXITED : Z := 0x4.
Definition WNOWAIT : Z := 0x1000000.

Definition SIGHUP : Z := 1.
Definition SIGINT : Z := 2.
Definition SIGUSR2 : Z := 12.

End Unix.

(** ** Go error values

    An [error] interface value is [option error]: [None] is nil. *)

Module Go.

(** The error variables of os and context the package and its tests
    compare against.  Each is one allocation, equal to itself only. *)
Inductive sentinel : Type :=
| os_ErrNotExist
| os_ErrPermission
| os_ErrExist
| os_ErrClosed
| os_ErrDeadlineExceeded
| context_Canceled
| context_DeadlineExceeded.

(** [*pidfd.Error] (pidfd.go): [FD, PID int] and the wrapped [Err]. *)
#[local] Set Warnings "-register-all".

Record ErrorOf (E : Type) : Type := mkError { FD : Z; PID : Z; Err : option E }.
Arguments mkError {E}.
Arguments FD {E}.
Arguments PID {E}.
Arguments Err {E}.

Inductive error : Type :=
| Errno (e : Z)                               (* syscall.Errno, unix.Errno *)
| Sentinel (s : sentinel)
| SyscallError (Syscall : string) (e : error) (* *os.SyscallError *)
| ErrorString (msg : string)                  (* fmt.Errorf without %w *)
| PidfdError (e : ErrorOf error).              (* *pidfd.Error *)

Definition Error : Type := ErrorOf error.

Definition sentinel_eqb (a b : sentinel) : bool :=
  match a, b with
  | os_ErrNotExist, os_ErrNotExist
  | os_ErrPermission, os_ErrPermission
  | os_ErrExist, os_ErrExist
  | os_ErrClosed, os_ErrClosed
  | os_ErrDeadlineExceeded, os_ErrDeadlineExceeded
  | context_Canceled, context_Canceled
  | context_DeadlineExceeded, context_DeadlineExceeded => true
  | _, _ => false
  end.

(** [err == target] on two non-nil interface values.  An errno is compared
    by value and an error variable by identity.  The remaining errors are
    pointers to allocations made at the point of failure, and no two of
    those are the same pointer. *)
Definition same (err target : error) : bool :=
  match err, target with
  | Errno a, Errno b => a =? b
  | Sentinel a, Sentinel b => sentinel_eqb a b
  | _, _ => false
  end.

(** [syscall.Errno.Is]. *)
Definition Errno_Is (e : Z) (target : error) : bool :=
  match target with
  | Sentinel os_ErrPermission => (e =? Unix.EACCES) || (e =? Unix.EPERM)
  | Sentinel os_ErrExist => (e =? Unix.EEXIST) || (e =? Unix.ENOTEMPTY)
  | Sentinel os_ErrNotExist => e =? Unix.ENOENT
  | _ => false
  end.

(** [os.NewSyscallError]: nil stays nil. *)
Definition os_NewSyscallError (syscall : string) (err : option error) : option error :=
  match err with
  | None => None
  | Some e => Some (SyscallError syscall e)
  end.

End Go.

Import Go.

(** ** pidfd.go, pidfd_linux.go: errors *)

(** [var esrch = unix.ESRCH], the "no such process" errno. *)
Definition esrch : error := Errno Unix.ESRCH.

(** The loop of [errors.Is] on a non-nil [err]: compare, ask the error's own
    [Is] method, unwrap, repeat.  [syscall.Errno] and [*pidfd.Error] have an
    [Is] method, [*os.SyscallError] and [*pidfd.Error] an [Unwrap].  The
    [PidfdError] case runs the body of the [Is] method of [Error], whose own
    call of [errors.Is] is on the wrapped error again. *)
Fixpoint errors_is (err target : error) {struct err} : bool :=
  same err target ||
  match err with
  | Errno e => Errno_Is e target
  | Sentinel _ => false
  | SyscallError _ e => errors_is e target
  | ErrorString _ => false
  | PidfdError e =>
      match target with
      | Sentinel os_ErrNotExist =>
          match Err e with
          | Some cause => errors_is cause esrch
          | None => false
          end
      | _ => false
      end
      || match Err e with
         | Some cause => errors_is cause target
         | None => false
         end
  end.

(** [errors.Is]. *)
Definition errors_Is (err target : option error) : bool :=
  match err, target with
  | Some e, Some t => errors_is e t
  | None, None => true
  | _, _ => false
  end.

(** [func (e *Error) Is(target error) bool]. *)
Definition Error_Is (e : Error) (target : error) : bool :=
  match target with
  | Sentinel os_ErrNotExist =>
      (* No such process. *)
      errors_Is (Err e) (Some esrch)
  | _ =>
      (* Fall back to the next error in the chain. *)
      false
  end.

(** [func (e *Error) Unwrap() error]. *)
Definition Error_Unwrap (e : Error) : option error := Err e.

(** [errors.As] with a [**pidfd.Error] target: the first [*pidfd.Error] of
    the chain. *)
Fixpoint errors_As_Error (err : error) : option Error :=
  match err with
  | PidfdError e => Some e
  | SyscallError _ e => errors_As_Error e
  | _ => None
  end.

(** ** The descriptor and the handle *)

Module Socket.

(** [time.Time] as far as deadlines go: the zero value [time.Time{}] means
    no deadline, anything else is an instant, [time.Unix(sec, nsec)]. *)
Inductive Time : Type :=
| Time_zero
| time_Unix (sec nsec : Z).

Definition UnixNano (t : Time) : Z :=
  match t with
  | Time_zero => 0
  | time_Unix sec nsec => sec * 1000000000 + nsec
  end.

(** Whether a read deadline has passed at the instant [now] (nanoseconds
    since the epoch). *)
Definition passed (now : Z) (deadline : Time) : bool :=
  match deadline with
  | Time_zero => false
  | time_Unix _ _ => UnixNano deadline <=? now
  end.

(** [*socket.Conn], and the [syscall.RawConn] made from it, on one
    descriptor: its number, its read deadline, whether it was closed. *)
Record Conn : Type := mkConn { sysfd : Z; rdeadline : Time; closed : bool }.

(** [socket.Conn.SetReadDeadline]: refused on a closed descriptor, which it
    leaves as it is. *)
Definition SetReadDeadline (c : Conn) (t : Time) : Conn * option error :=
  if closed c then (c, Some (Sentinel os_ErrClosed))
  else (mkConn (sysfd c) t (closed c), None).

(** [rc.Control(f)]: [f] runs on the descriptor number unless the
    descriptor was closed. *)
Definition Control (c : Conn) : option Z :=
  if closed c then None else Some (sysfd c).

(** What a call reaches the operating system with. *)
Inductive oscall : Type :=
| sys_pidfd_send_signal (fd sig flags : Z)
| sys_waitid (idtype id options : Z).

(** [socket.Conn.PidfdSendSignal(sig, nil, flags)]: pidfd_send_signal(2) on
    the descriptor, its errno made an [*os.SyscallError]; a closed
    descriptor is refused before the kernel is asked.  [kill] is the
    kernel's answer.  The result comes with the system calls made. *)
Definition PidfdSendSignal (kill : Z -> Z -> Z -> option Z)
    (c : Conn) (sig flags : Z) : option error * list oscall :=
  let op := "pidfd_send_signal"%string in
  if closed c then (os_NewSyscallError op (Some (Errno Unix.EBADF)), [])
  else (os_NewSyscallError op (option_map Errno (kill (sysfd c) sig flags)),
        [sys_pidfd_send_signal (sysfd c) sig flags]).

End Socket.

Import Socket.

(** [type File struct { pid int; c *conn; rc syscall.RawConn }]: [rc] is
    [c.SyscallConn()], the same descriptor. *)
Record File : Type := mkFile { pid : Z; c : Conn }.

(** *** open *)

(** The three calls [open] makes, as the environment answers them. *)
Record opener : Type := mkOpener {
  unix_PidfdOpen : Z -> Z -> Z + error;
  socket_New : Z -> string -> Conn + error;
  SyscallConn : Conn -> option error
}.

(** [func open(pid int)], returning the [File] or the error. *)
Definition open (env : opener) (pid : Z) : File + error :=
  match unix_PidfdOpen env pid Unix.PIDFD_NONBLOCK with
  | inr err =>
      (* No FD to annotate the error yet. *)
      inr (PidfdError (mkError 0 pid (Some err)))
  | inl fd =>
      match socket_New env fd "pidfd" with
      | inr err => inr err
      | inl c =>
          match SyscallConn env c with
          | Some err => inr err
          | None => inl (mkFile pid c)
          end
      end
  end.

(** [func Open(pid int)]: [return open(pid)]. *)
Definition Open (env : opener) (pid : Z) : File + error := open env pid.

(** *** wrap, sendSignal *)

(** [func (f *File) wrap(err error) error]. *)
Definition wrap (f : File) (err : option error) : option error :=
  match err with
  | None => None
  | Some e =>
      (* Best effort. *)
      let fd := match Control (c f) with Some cfd => cfd | None => 0 end in
      Some (PidfdError (mkError fd (pid f) (Some e)))
  end.

(** An [os.Signal] value: a [unix.Signal] (which is [syscall.Signal]), or a
    value of some other type that implements the interface, known here by
    the name [%T] prints. *)
Inductive os_Signal : Type :=
| unix_Signal (n : Z)
| other_Signal (type_name : string).

(** [func (f *File) sendSignal(signal os.Signal) error], with the calls that
    reached the operating system. *)
Definition sendSignal (kill : Z -> Z -> Z -> option Z) (f : File)
    (signal : os_Signal) : option error * list oscall :=
  match signal with
  | other_Signal T =>
      (Some (ErrorString
               ("pidfd: invalid signal type for File.SendSignal: " ++ T)), [])
  | unix_Signal ssig =>
      let '(err, calls) := PidfdSendSignal kill (c f) ssig 0 in
      (wrap f err, calls)
  end.

(** [func (f *File) SendSignal(signal os.Signal) error]. *)
Definition SendSignal (kill : Z -> Z -> Z -> option Z) (f : File)
    (signal : os_Signal) : option error * list oscall :=
  sendSignal kill f signal.

(** ** The kernel's side of a pidfd *)

Module Kernel.

(** The process a pidfd refers to: running, exited and not yet reaped
    (its exit status can be collected), or reaped. *)
Inductive proc : Type := Running | Zombie | Reaped.

(** [child]: whether the process is a child of the caller; [now]: the
    clock, in nanoseconds since the epoch. *)
Record kernel : Type := mkKernel { target : proc; child : bool; now : Z }.

Definition reap (k : kernel) : kernel := mkKernel Reaped (child k) (now k).

(** waitid(2) with idtype [P_PIDFD] on a descriptor opened with
    [PIDFD_NONBLOCK]: EAGAIN while the process runs; once it has exited
    the call succeeds, and collects the exit status unless [WNOWAIT] is
    among the options; ECHILD when there is nothing to wait for. *)
Definition Waitid (k : kernel) (idtype id options : Z) : option error * kernel :=
  if negb (idtype =? Unix.P_PIDFD) then (Some (Errno Unix.EINVAL), k)
  else if Z.land options Unix.WEXITED =? 0 then (Some (Errno Unix.EINVAL), k)
  else if negb (child k) then (Some (Errno Unix.ECHILD), k)
  else match target k with
       | Running => (Some (Errno Unix.EAGAIN), k)
       | Zombie =>
           (None, if Z.land options Unix.WNOWAIT =? 0 then reap k else k)
       | Reaped => (Some (Errno Unix.ECHILD), k)
       end.

End Kernel.

Import Kernel.

(** ** wait (pidfd_linux.go) *)

(** [err == unix.EAGAIN] on an [error] that may be nil. *)
Definition is_errno (err : option error) (e : Z) : bool :=
  match err with
  | Some x => same x (Errno e)
  | None => false
  end.

(** The function [wait] passes to [f.rc.Read] (lines 91-101), on the
    kernel and on the variable [werr] it captures. *)
Definition wait_fn (k : kernel) (fd : Z) (werr : option error)
  : bool * option error * kernel * list oscall :=
  let options := Z.lor Unix.WEXITED Unix.WNOWAIT in
  let '(err, k') := Waitid k Unix.P_PIDFD fd options in
  let calls := [sys_waitid Unix.P_PIDFD fd options] in
  if is_errno err Unix.EAGAIN then (false, werr, k', calls)
  else (true, err, k', calls).

(** The loop of lines 111-115 over [[]error{cerr, rerr, werr, serr}]. *)
Fixpoint first_error (errs : list (option error)) : option error :=
  match errs with
  | [] => None
  | Some err :: _ => Some err
  | None :: rest => first_error rest
  end.

(** What a context's [Err] returns once it is done. *)
Inductive ctx_error : Type := Canceled | DeadlineExceeded.

Definition ctx_Err (e : ctx_error) : error :=
  match e with
  | Canceled => Sentinel context_Canceled
  | DeadlineExceeded => Sentinel context_DeadlineExceeded
  end.

(** [cancel()] on the context [context.WithCancel] derived. *)
Definition cancel (ctx : option ctx_error) : option ctx_error :=
  match ctx with
  | None => Some Canceled
  | Some e => Some e
  end.

(** Inside [f.rc.Read(fn)]: before the first call of [fn], about to call
    [fn], parked until the descriptor is readable or its deadline passes. *)
Inductive poll_pc : Type := Prepare | Call | Park.

(** Where the goroutine that called [wait] stands, by source line. *)
Inductive main_pc : Type :=
| L74            (* ctx, cancel := context.WithCancel(ctx); defer cancel() *)
| L78            (* wg.Add(1); defer wg.Wait() *)
| L81            (* go func() { ... }() *)
| L91 (p : poll_pc)  (* rerr := f.rc.Read(...) *)
| L105           (* cerr := ctx.Err() *)
| L106           (* cancel() *)
| L107           (* wg.Wait() *)
| L108           (* serr := f.c.SetReadDeadline(time.Time{}) *)
| L111           (* for _, err := range ...; return *)
| Ldefer_Wait    (* deferred wg.Wait() *)
| Ldefer_cancel  (* deferred cancel() *)
| Lreturned.

(** Where the goroutine of lines 81-87 stands. *)
Inductive watcher_pc : Type :=
| G_unborn
| G85            (* <-ctx.Done() *)
| G86            (* _ = f.c.SetReadDeadline(time.Unix(0, 1)) *)
| G82            (* deferred wg.Done() *)
| G_exited.

Inductive goroutine : Type := main | watcher.

(** What happened, latest first. *)
Inductive event : Type :=
| ev_go
| ev_syscall (call : oscall)
| ev_fn (stop : bool)
| ev_SetReadDeadline (g : goroutine) (t : Time)
| ev_wg_Done
| ev_wg_Wait.

(** One invocation of [wait]: the world it shares ([k], the descriptor
    [cn], the caller's context [parent]), the derived context [ctx], the
    wait group counter, both goroutines and the variables of [wait]. *)
Record state : Type := mkState {
  k : kernel;
  cn : Conn;
  parent : option ctx_error;
  ctx : option ctx_error;
  wg : Z;
  mpc : main_pc;
  wpc : watcher_pc;
  rerr : option error;
  werr : option error;
  cerr : option error;
  serr : option error;
  ret : option error;
  log : list event
}.

Definition set_k (x : kernel) (s : state) : state :=
  mkState x (cn s) (parent s) (ctx s) (wg s) (mpc s) (wpc s)
          (rerr s) (werr s) (cerr s) (serr s) (ret s) (log s).
Definition set_cn (x : Conn) (s : state) : state :=
  mkState (k s) x (parent s) (ctx s) (wg s) (mpc s) (wpc s)
          (rerr s) (werr s) (cerr s) (serr s) (ret s) (log s).
Definition set_parent (x : option ctx_error) (s : state) : state :=
  mkState (k s) (cn s) x (ctx s) (wg s) (mpc s) (wpc s)
          (rerr s) (werr s) (cerr s) (serr s) (ret s) (log s).
Definition set_ctx (x : option ctx_error) (s : state) : state :=
  mkState (k s) (cn s) (parent s) x (wg s) (mpc s) (wpc s)
          (rerr s) (werr s) (cerr s) (serr s) (ret s) (log s).
Definition set_wg (x : Z) (s : state) : state :=
  mkState (k s) (cn s) (parent s) (ctx s) x (mpc s) (wpc s)
          (rerr s) (werr s) (cerr s) (serr s) (ret s) (log s).
Definition set_mpc (x : main_pc) (s : state) : state :=
  mkState (k s) (cn s) (parent s) (ctx s) (wg s) x (wpc s)
          (rerr s) (werr s) (cerr s) (serr s) (ret s) (log s).
Definition set_wpc (x : watcher_pc) (s : state) : state :=
  mkState (k s) (cn s) (parent s) (ctx s) (wg s) (mpc s) x
          (rerr s) (werr s) (cerr s) (serr s) (ret s) (log s).
Definition set_rerr (x : option error) (s : state) : state :=
  mkState (k s) (cn s) (parent s) (ctx s) (wg s) (mpc s) (wpc s)
          x (werr s) (cerr s) (serr s) (ret s) (log s).
Definition set_werr (x : option error) (s : state) : state :=
  mkState (k s) (cn s) (parent s) (ctx s) (wg s) (mpc s) (wpc s)
          (rerr s) x (cerr s) (serr s) (ret s) (log s).
Definition set_cerr (x : option error) (s : state) : state :=
  mkState (k s) (cn s) (parent s) (ctx s) (wg s) (mpc s) (wpc s)
          (rerr s) (werr s) x (serr s) (ret s) (log s).
Definition set_serr (x : option error) (s : state) : state :=
  mkState (k s) (cn s) (parent s) (ctx s) (wg s) (mpc s) (wpc s)
          (rerr s) (werr s) (cerr s) x (ret s) (log s).
Definition set_ret (x : option error) (s : state) : state :=
  mkState (k s) (cn s) (parent s) (ctx s) (wg s) (mpc s) (wpc s)
          (rerr s) (werr s) (cerr s) (serr s) x (log s).
Definition emit (evs : list event) (s : state) : state :=
  mkState (k s) (cn s) (parent s) (ctx s) (wg s) (mpc s) (wpc s)
          (rerr s) (werr s) (cerr s) (serr s) (ret s) (evs ++ log s).

(** [f.rc.Read] returns [err]: line 91 is done. *)
Definition leave_Read (err : option error) (s : state) : state :=
  set_mpc L105 (set_rerr err s).

(** The next step of the goroutine that called [wait]; [None] while it is
    blocked, and once it has returned.  [f.rc.Read] refuses a closed
    descriptor and one whose read deadline has passed, calls [fn] until it
    returns true, and between two calls parks until the descriptor is
    readable (action [ready] below) or its read deadline passes. *)
Definition step_main (s : state) : option state :=
  match mpc s with
  | L74 => Some (set_mpc L78 (set_ctx (parent s) s))
  | L78 => Some (set_mpc L81 (set_wg (wg s + 1) s))
  | L81 => Some (set_mpc (L91 Prepare) (set_wpc G85 (emit [ev_go] s)))
  | L91 Prepare =>
      if closed (cn s) then
        Some (leave_Read (Some (Sentinel os_ErrClosed)) s)
      else if passed (now (k s)) (rdeadline (cn s)) then
        Some (leave_Read (Some (Sentinel os_ErrDeadlineExceeded)) s)
      else Some (set_mpc (L91 Call) s)
  | L91 Call =>
      let '(stop, werr', k', calls) := wait_fn (k s) (sysfd (cn s)) (werr s) in
      let s' := emit (ev_fn stop :: map ev_syscall calls)
                     (set_werr werr' (set_k k' s)) in
      if stop then Some (leave_Read None s') else Some (set_mpc (L91 Park) s')
  | L91 Park =>
      if passed (now (k s)) (rdeadline (cn s)) then
        Some (leave_Read (Some (Sentinel os_ErrDeadlineExceeded)) s)
      else None
  | L105 => Some (set_mpc L106 (set_cerr (option_map ctx_Err (ctx s)) s))
  | L106 => Some (set_mpc L107 (set_ctx (cancel (ctx s)) s))
  | L107 =>
      if wg s =? 0 then Some (set_mpc L108 (emit [ev_wg_Wait] s)) else None
  | L108 =>
      let '(c', err) := SetReadDeadline (cn s) Time_zero in
      Some (set_mpc L111
              (set_serr err
                 (set_cn c' (emit [ev_SetReadDeadline main Time_zero] s))))
  | L111 =>
      Some (set_mpc Ldefer_Wait
              (set_ret (first_error [cerr s; rerr s; werr s; serr s]) s))
  | Ldefer_Wait => if wg s =? 0 then Some (set_mpc Ldefer_cancel s) else None
  | Ldefer_cancel => Some (set_mpc Lreturned (set_ctx (cancel (ctx s)) s))
  | Lreturned => None
  end.

(** The next step of the goroutine of lines 81-87. *)
Definition step_watcher (s : state) : option state :=
  match wpc s with
  | G_unborn => None
  | G85 =>
      match ctx s with
      | Some _ => Some (set_wpc G86 s)
      | None => None
      end
  | G86 =>
      let '(c', _) := SetReadDeadline (cn s) (time_Unix 0 1) in
      Some (set_wpc G82
              (set_cn c' (emit [ev_SetReadDeadline watcher (time_Unix 0 1)] s)))
  | G82 =>
      if wg s <=? 0 then None   (* negative WaitGroup counter: panic *)
      else Some (set_wpc G_exited (set_wg (wg s - 1) (emit [ev_wg_Done] s)))
  | G_exited => None
  end.

(** What can happen next: the scheduler runs a goroutine; the runtime
    reports the descriptor readable to a parked [Read] (it may do so more
    than once, and early); the caller's context ends; the process exits. *)
Inductive action : Type :=
| run (g : goroutine)
| ready
| done (e : ctx_error)
| exits.

Definition step (a : action) (s : state) : option state :=
  match a with
  | run main => step_main s
  | run watcher => step_watcher s
  | ready =>
      match mpc s with
      | L91 Park => Some (set_mpc (L91 Call) s)
      | _ => None
      end
  | done e =>
      match parent s with
      | Some _ => None
      | None =>
          (* the derived context, once made, ends with its parent *)
          Some (set_parent (Some e)
                  match mpc s, ctx s with
                  | L74, _ => s
                  | _, None => set_ctx (Some e) s
                  | _, Some _ => s
                  end)
      end
  | exits =>
      match target (k s) with
      | Running => Some (set_k (mkKernel Zombie (child (k s)) (now (k s))) s)
      | _ => None
      end
  end.

Fixpoint exec (sched : list action) (s : state) : option state :=
  match sched with
  | [] => Some s
  | a :: rest =>
      match step a s with
      | Some s' => exec rest s'
      | None => None
      end
  end.

(** [func (f *File) wait(ctx context.Context) error] is entered. *)
Definition enter (f : File) (k : kernel) (parent : option ctx_error) : state :=
  mkState k (c f) parent None 0 L74 G_unborn None None None None None [].

(** [wait] under a schedule: the state it reaches, if the schedule can be
    followed. *)
Definition wait (f : File) (k : kernel) (parent : option ctx_error)
    (sched : list action) : option state :=
  exec sched (enter f k parent).

(** [func (f *File) Wait(ctx context.Context) error { return f.wait(ctx) }]. *)
Definition Wait (f : File) (k : kernel) (parent : option ctx_error)
    (sched : list action) : option state :=
  wait f k parent sched.

(** [wait] has returned. *)
Definition returned (s : state) : bool :=
  match mpc s with
  | Lreturned => true
  | _ => false
  end.

(** ** The earlier versions of Wait that pidfd.go keeps *)

(** The function [readContext] passes to [f.rc.Read] (lines 195-202),
    around the caller's [fn], whose state is [S]. *)
Definition readContext_fn {S : Type} (ctx : option ctx_error)
    (fn : Z -> S -> bool * S) (fd : Z) (st : S) : bool * S :=
  match ctx with
  | Some _ =>
      (* Context canceled, don't invoke user function. *)
      (true, st)
  | None => fn fd st
  end.

(** The function the [Wait] of that time passed to [readContext] (lines
    165-168): [atomic.AddUint32(&n, 1) == 2] on the counter [n]. *)
Definition Wait_fn (fd : Z) (n : Z) : bool * Z :=
  let n' := (n + 1) mod 2 ^ 32 in
  (n' =? 2, n').

(** What [readContext] returns (lines 211-218), from the context's error,
    the poller's and that of clearing the deadline. *)
Definition readContext_return (cerr rerr serr : option error) : option error :=
  first_error [cerr; rerr; serr].

(** What the first [Wait] of pidfd.go, which did everything itself, returns
    (lines 79-83), from the context's error [err] and the error of clearing
    the deadline; the poller's error was dropped. *)
Definition Wait_inline_return (err serr : option error) : option error :=
  match serr with
  | Some e => Some e
  | None => err
  end.

(** ** What the proofs are stated with: invariants, schedules, scenarios *)

(** A machine whose only processes are 1 and 4242, with descriptor 3 free. *)
Definition two_processes : opener :=
  mkOpener
    (fun pid _ =>
       if (pid =? 1) || (pid =? 4242) then inl 3 else inr (Errno Unix.ESRCH))
    (fun fd _ => inl (mkConn fd Time_zero false))
    (fun _ => None).

(** A caller without privilege over any process. *)
Definition unprivileged : Z -> Z -> Z -> option Z := fun _ _ _ => Some Unix.EPERM.


(** The handle [Open(1)] yields on [two_processes]. *)
Definition init_File : File := mkFile 1 (mkConn 3 Time_zero false).

Definition alive (w : watcher_pc) : bool :=
  match w with
  | G85 | G86 | G82 => true
  | _ => false
  end.

(** The goroutines and the wait group counter: the watcher exists from
    line 81 on, the counter is 1 while it lives, and past line 107 it has
    exited. *)
Definition control (s : state) : Prop :=
  match mpc s with
  | L74 | L78 => wpc s = G_unborn /\ wg s = 0
  | L81 => wpc s = G_unborn /\ wg s = 1
  | L91 _ | L105 | L106 | L107 =>
      wpc s <> G_unborn /\ wg s = (if alive (wpc s) then 1 else 0)
  | L108 | L111 | Ldefer_Wait | Ldefer_cancel | Lreturned =>
      wpc s = G_exited /\ wg s = 0
  end.

(** The source line the calling goroutine stands at.  The deferred calls
    run as [wait] returns, after line 111: they and the return are numbered
    117 to 119 here. *)
Definition line (pc : main_pc) : Z :=
  match pc with
  | L74 => 74
  | L78 => 78
  | L81 => 81
  | L91 _ => 91
  | L105 => 105
  | L106 => 106
  | L107 => 107
  | L108 => 108
  | L111 => 111
  | Ldefer_Wait => 117
  | Ldefer_cancel => 118
  | Lreturned => 119
  end.

(** The derived context follows the caller's until line 106 cancels it;
    the watcher gets past line 85 only once it is done; [cerr], once
    assigned, is nil or the error of the caller's context. *)
Definition context_ok (s : state) : Prop :=
  (line (mpc s) = 74 -> ctx s = None)
  /\ (74 < line (mpc s) <= 106 -> ctx s = parent s)
  /\ (106 < line (mpc s) -> ctx s <> None)
  /\ (wpc s = G86 \/ wpc s = G82 \/ wpc s = G_exited -> ctx s <> None)
  /\ (line (mpc s) <= 105 -> cerr s = None)
  /\ (cerr s = None \/ cerr s = option_map ctx_Err (parent s)).

(** Once the loop of lines 111-115 has run, [ret] is its choice. *)
Definition selected (s : state) : Prop :=
  111 < line (mpc s) ->
  ret s = first_error [cerr s; rerr s; werr s; serr s].

(** The descriptor [wait] was entered with, [c0]: its number and whether it
    is closed do not change; closed, it keeps its deadline; open, it has no
    deadline once line 108 has run. *)
Definition descriptor (c0 : Conn) (s : state) : Prop :=
  sysfd (cn s) = sysfd c0
  /\ closed (cn s) = closed c0
  /\ (closed c0 = true -> rdeadline (cn s) = rdeadline c0)
  /\ (closed c0 = false -> 108 < line (mpc s) -> rdeadline (cn s) = Time_zero).

(** The kernel [wait] was entered with, [k0]: [wait] changes nothing of it;
    the process may exit meanwhile, and is never reaped. *)
Definition kernel_ok (k0 : kernel) (s : state) : Prop :=
  child (k s) = child k0
  /\ now (k s) = now k0
  /\ (target (k s) = target k0
      \/ (target k0 = Running /\ target (k s) = Zombie)).

(** The events the ordering of line 107 is about. *)
Definition is_force (ev : event) : bool :=
  match ev with
  | ev_SetReadDeadline watcher _ => true
  | _ => false
  end.

Definition is_clear (ev : event) : bool :=
  match ev with
  | ev_SetReadDeadline main _ => true
  | _ => false
  end.

Definition is_join (ev : event) : bool :=
  match ev with
  | ev_wg_Wait => true
  | _ => false
  end.

Definition is_Done (ev : event) : bool :=
  match ev with
  | ev_wg_Done => true
  | _ => false
  end.

(** A log (latest event first) in the order [wait] means: when the watcher
    sets its deadline the main goroutine has not cleared yet; the clear
    comes after the join, the join after the watcher's [wg.Done()], and
    that after the watcher's write. *)
Fixpoint ordered (log : list event) : Prop :=
  match log with
  | [] => True
  | ev :: earlier =>
      (is_force ev = true -> existsb is_clear earlier = false)
      /\ (is_clear ev = true -> existsb is_join earlier = true)
      /\ (is_join ev = true -> existsb is_Done earlier = true)
      /\ (is_Done ev = true -> existsb is_force earlier = true)
      /\ ordered earlier
  end.

Definition log_ok (s : state) : Prop :=
  ordered (log s)
  /\ (existsb is_clear (log s) = true -> 108 < line (mpc s))
  /\ (108 <= line (mpc s) -> existsb is_join (log s) = true)
  /\ (wpc s = G_exited -> existsb is_Done (log s) = true)
  /\ (wpc s = G82 -> existsb is_force (log s) = true).

(** Everything above holds of every state [wait] reaches. *)
Definition reachable_ok (f : File) (k0 : kernel) (s : state) : Prop :=
  control s /\ context_ok s /\ selected s /\ descriptor (c f) s
  /\ kernel_ok k0 s /\ log_ok s.

(** The child [testSleepFile] starts, its handle, and the kernel while the
    child sleeps. *)
Definition sleeper : File := mkFile 4242 (mkConn 3 Time_zero false).
Definition sleeping : kernel := mkKernel Running true 1700000000000000000.

(** The process exits and the context is canceled while [wait] is on its
    way to the poller: the exit check finds the process exited, line 105
    finds the context canceled. *)
Definition cancel_and_exit : list action :=
  [run main; run main; run main; exits; done Canceled;
   run main; run main; run main; run main;
   run watcher; run watcher; run watcher;
   run main; run main; run main; run main; run main].

(** Once the derived context is done, it stays done, line 105 reads its
    error and the loop of lines 111-115 settles on it. *)
Definition settled (e : ctx_error) (s : state) : Prop :=
  ctx s = Some e
  /\ 91 <= line (mpc s)
  /\ (105 < line (mpc s) -> cerr s = Some (ctx_Err e))
  /\ (111 < line (mpc s) -> ret s = Some (ctx_Err e)).

(** The context is canceled before [Wait] is called; the scheduler lets
    the calling goroutine reach the poller before the watcher runs. *)
Definition main_first : list action := [run main; run main; run main; run main].

(** While the process runs and the descriptor is open, with no deadline
    left on it at entry: a deadline on the descriptor means the context is
    done, [Read] returns only when it is, and [cerr] is not nil. *)
Definition while_running (s : state) : Prop :=
  target (k s) = Running /\ child (k s) = true /\ closed (cn s) = false
  /\ (line (mpc s) <= 107 -> rdeadline (cn s) <> Time_zero -> ctx s <> None)
  /\ (line (mpc s) = 105 -> ctx s <> None)
  /\ (105 < line (mpc s) -> cerr s <> None).

(** With the process exited and not reaped, the descriptor open with no
    deadline at entry, and a context that never ends: the watcher stays at
    line 85 until line 106, the poller never parks, and no error is
    recorded. *)
Definition once_exited (s : state) : Prop :=
  parent s = None /\ target (k s) = Zombie /\ child (k s) = true
  /\ closed (cn s) = false
  /\ rerr s = None /\ werr s = None /\ cerr s = None /\ serr s = None
  /\ (line (mpc s) <= 106 ->
      ctx s = None /\ rdeadline (cn s) = Time_zero
      /\ (wpc s = G_unborn \/ wpc s = G85))
  /\ (111 < line (mpc s) -> ret s = None)
  /\ mpc s <> L91 Park.

(** A call of [Wait]: the caller's context as the call begins ([None]: not
    done) and the schedule the call runs under. *)
Record call : Type := mkCall {
  call_ctx : option ctx_error;
  call_sched : list action
}.

(** The handle and the kernel as a call of [Wait] leaves them. *)
Definition after (f : File) (s : state) : File * kernel :=
  (mkFile (pid f) (cn s), k s).

(** Calls of [Wait] on one handle, one after the other, each to its
    return: what they return, and the handle and the kernel after the
    last. *)
Fixpoint Waits (f : File) (k0 : kernel) (calls : list call)
  : option (list (option error) * File * kernel) :=
  match calls with
  | [] => Some ([], f, k0)
  | cl :: rest =>
      match Wait f k0 (call_ctx cl) (call_sched cl) with
      | Some s =>
          if returned s then
            let '(f1, k1) := after f s in
            match Waits f1 k1 rest with
            | Some (rs, f2, k2) => Some (ret s :: rs, f2, k2)
            | None => None
            end
          else None
      | None => None
      end
  end.

(** The context of the call ends by cancellation if it ends, and the
    process does not exit during the call. *)
Definition canceled_while_running (cl : call) : Prop :=
  call_ctx cl <> Some DeadlineExceeded
  /\ ~ In (done DeadlineExceeded) (call_sched cl)
  /\ Forall (fun a => a <> exits) (call_sched cl).

(** The calling goroutine runs to line 107, the watcher runs to its end,
    the calling goroutine returns. *)
Definition main_then_watcher : list action :=
  [run main; run main; run main; run main; run main; run main; run main;
   run watcher; run watcher; run watcher;
   run main; run main; run main; run main; run main].

(** The watcher runs to its end as soon as it is started, then the calling
    goroutine runs to its return. *)
Definition watcher_then_main : list action :=
  [run main; run main; run main;
   run watcher; run watcher; run watcher;
   run main; run main; run main; run main; run main; run main; run main;
   run main].

(** The context is canceled while [Read] is parked: the watcher sets its
    deadline, [Read] gives up, [wait] joins the watcher, clears the
    deadline and returns. *)
Definition canceled_while_parked : list action :=
  [run main; run main; run main; run main; run main;
   done Canceled;
   run watcher; run watcher; run watcher;
   run main; run main; run main; run main; run main; run main; run main;
   run main].

(** The poller calls the function and parks on an open descriptor only;
    once the watcher has run line 86 on an open descriptor, the deadline it
    set is there until line 108 clears it. *)
Definition forced (s : state) : Prop :=
  (91 = line (mpc s) -> mpc s <> L91 Prepare -> closed (cn s) = false)
  /\ (closed (cn s) = false -> wpc s = G82 \/ wpc s = G_exited ->
      line (mpc s) <= 107 -> rdeadline (cn s) = time_Unix 0 1).

(** A goroutine can take a step. *)
Definition can_step (s : state) : Prop :=
  exists g s', step (run g) s = Some s'.

(** [Read] is parked and the context is not done: [wait] waits for the
    process to exit or for the context to end. *)
Definition waiting (s : state) : Prop :=
  mpc s = L91 Park /\ ctx s = None.

(** ** What the further properties are stated with *)

(** The error at the end of the chain [Unwrap] opens. *)
Fixpoint errors_root (err : error) : error :=
  match err with
  | SyscallError _ e => errors_root e
  | PidfdError e =>
      match Err e with
      | Some cause => errors_root cause
      | None => err
      end
  | _ => err
  end.

(** An error [Wait] can return as it is: nil, an error variable or an
    errno. *)
Definition bare (err : option error) : Prop :=
  match err with
  | None | Some (Sentinel _) | Some (Errno _) => True
  | Some _ => False
  end.

Definition is_waitid (ev : event) : bool :=
  match ev with
  | ev_syscall (sys_waitid _ _ _) => true
  | _ => false
  end.

(** What [wait] has recorded is what the poller and the exit check said:
    nothing before [Read] returns; then [rerr] is nil, a closed descriptor
    or a passed deadline; [werr] is nil or an errno other than EAGAIN, and
    it is nil with [rerr] only when the exit check, made at least once,
    found a child that has exited; [serr] is nil or a closed descriptor. *)
Definition recorded (s : state) : Prop :=
  (line (mpc s) < 105 -> rerr s = None /\ werr s = None)
  /\ (rerr s = None \/ rerr s = Some (Sentinel os_ErrClosed)
      \/ rerr s = Some (Sentinel os_ErrDeadlineExceeded))
  /\ (werr s = None \/ exists n, werr s = Some (Errno n) /\ n <> Unix.EAGAIN)
  /\ (105 <= line (mpc s) -> rerr s = None -> werr s = None ->
      target (k s) = Zombie /\ child (k s) = true
      /\ existsb is_waitid (log s) = true)
  /\ (serr s = None \/ serr s = Some (Sentinel os_ErrClosed))
  /\ (line (mpc s) <= 108 -> serr s = None).

(** On a descriptor that had no deadline when [wait] was entered: a
    deadline on it means the context is done, and so does a [Read] that
    timed out. *)
Definition forced_by_context (s : state) : Prop :=
  (line (mpc s) <= 107 -> rdeadline (cn s) <> Time_zero -> ctx s <> None)
  /\ (line (mpc s) = 105 -> rerr s = Some (Sentinel os_ErrDeadlineExceeded) ->
      ctx s <> None)
  /\ (105 < line (mpc s) -> rerr s = Some (Sentinel os_ErrDeadlineExceeded) ->
      cerr s <> None).

(** How many steps the goroutines of [wait] have left at most. *)
Definition main_rank (pc : main_pc) : nat :=
  match pc with
  | L74 => 13
  | L78 => 12
  | L81 => 11
  | L91 Prepare => 10
  | L91 Call => 9
  | L91 Park => 8
  | L105 => 7
  | L106 => 6
  | L107 => 5
  | L108 => 4
  | L111 => 3
  | Ldefer_Wait => 2
  | Ldefer_cancel => 1
  | Lreturned => 0
  end.

Definition watcher_rank (w : watcher_pc) : nat :=
  match w with
  | G_unborn | G85 => 3
  | G86 => 2
  | G82 => 1
  | G_exited => 0
  end.

Definition rank (s : state) : nat :=
  (main_rank (mpc s) + watcher_rank (wpc s))%nat.

(** What is left of a call once [Read] has been woken: the function is
    called, [wait] tidies up, the watcher runs to its end, [wait]
    returns. *)
Definition main_then_watcher_tail : list action :=
  [run main; run main; run main;
   run watcher; run watcher; run watcher;
   run main; run main; run main; run main; run main].

(** The process is no child of the caller: the exit check answers
    ECHILD. *)
Definition stranger : kernel := mkKernel Running false 1700000000000000000.

(** The system calls in a log, and the exit checks among them. *)
Fixpoint syscalls (log : list event) : list oscall :=
  match log with
  | [] => []
  | ev_syscall call :: earlier => call :: syscalls earlier
  | _ :: earlier => syscalls earlier
  end.

(** The one system call [wait] makes on descriptor [fd]. *)
Definition exit_check (fd : Z) : oscall :=
  sys_waitid Unix.P_PIDFD fd (Z.lor Unix.WEXITED Unix.WNOWAIT).

(** How often the runtime reported the descriptor readable. *)
Definition is_ready (a : action) : bool :=
  match a with
  | ready => true
  | _ => false
  end.

Definition wakeups (sched : list action) : nat :=
  List.length (filter is_ready sched).

(** The function given to the poller has a call to come without any
    wake-up: the first. *)
Definition pending (pc : main_pc) : nat :=
  match pc with
  | L74 | L78 | L81 | L91 Prepare | L91 Call => 1
  | _ => 0
  end.

(** Every system call so far is the exit check on the descriptor. *)
Definition only_exit_checks (fd : Z) (s : state) : Prop :=
  sysfd (cn s) = fd
  /\ Forall (fun call => call = exit_check fd) (syscalls (log s)).

(** The process is polled twice while it runs, exits, and is polled once
    more. *)
Definition woken_twice : list action :=
  [run main; run main; run main; run main; run main;
   ready; run main; exits; ready]
  ++ main_then_watcher_tail.

(** A step of one of the two goroutines, as opposed to an event from
    outside. *)
Definition is_run (a : action) : bool :=
  match a with
  | run _ => true
  | _ => false
  end.

(** The caller's context is done with error [e]; once line 105 has run,
    [cerr] is that error. *)
Definition honoured (e : ctx_error) (s : state) : Prop :=
  parent s = Some e
  /\ (105 < line (mpc s) -> cerr s = Some (ctx_Err e)).

(** [Read] is parked when the caller's context is canceled. *)
Definition parked_then_canceled : list action :=
  [run main; run main; run main; run main; run main; done Canceled].

(** Under a context that never ends, on an open descriptor with no
    deadline left on it, for a child not yet reaped: nothing goes wrong,
    the watcher stays at line 85 until line 106 lets it go, and [Read]
    returns only once the process has exited. *)
Definition live (s : state) : Prop :=
  parent s = None /\ child (k s) = true /\ target (k s) <> Reaped
  /\ closed (cn s) = false
  /\ rerr s = None /\ werr s = None /\ cerr s = None /\ serr s = None
  /\ (line (mpc s) <= 106 ->
      ctx s = None /\ rdeadline (cn s) = Time_zero
      /\ (wpc s = G_unborn \/ wpc s = G85))
  /\ (105 <= line (mpc s) -> target (k s) = Zombie)
  /\ (111 < line (mpc s) -> ret s = None).

(** [Read] is parked when the process exits. *)
Definition parked_then_exited : list action :=
  [run main; run main; run main; run main; run main; exits].

(** * Properties *)

(** ** Error values *)

Lemma error_chain_ind (P : error -> Prop) :
  (forall e, P (Errno e)) ->
  (forall s, P (Sentinel s)) ->
  (forall syscall e, P e -> P (SyscallError syscall e)) ->
  (forall msg, P (ErrorString msg)) ->
  (forall fd pid, P (PidfdError (mkError fd pid None))) ->
  (forall fd pid cause, P cause -> P (PidfdError (mkError fd pid (Some cause)))) ->
  forall e, P e.
Proof.
  intros HE HS HSy HM HN HC.
  fix IH 1.
  intros [e | s | syscall e | msg | [fd pid [cause |]]].
  - apply HE.
  - apply HS.
  - apply HSy, IH.
  - apply HM.
  - apply HC, IH.
  - apply HN.
Qed.

(** On a [*pidfd.Error], [errors.Is] asks the [Is] method, then goes on
    with what [Unwrap] returns. *)
Lemma errors_is_PidfdError (e : Error) (target : error) :
  errors_is (PidfdError e) target
  = Error_Is e target || errors_Is (Error_Unwrap e) (Some target).
Proof.
  unfold Error_Is, Error_Unwrap, errors_Is. cbn.
  destruct target as [n | [] | ? ? | ? | ?]; destruct (Err e); reflexivity.
Qed.

Lemma errors_is_SyscallError (syscall : string) (e target : error) :
  errors_is (SyscallError syscall e) target = errors_is e target.
Proof. destruct target; reflexivity. Qed.

Lemma errors_is_Errno (n : Z) (target : error) :
  errors_is (Errno n) target = same (Errno n) target || Errno_Is n target.
Proof. reflexivity. Qed.

(** An error that is or wraps EPERM is a permission error for
    [errors.Is]: the errno at the end of the chain says so. *)
Lemma wraps_EPERM_is_ErrPermission (e : error) :
  errors_is e (Errno Unix.EPERM) = true ->
  errors_is e (Sentinel os_ErrPermission) = true.
Proof.
  induction e as [n | s | syscall e IH | msg | fd pid | fd pid cause IH]
    using error_chain_ind.
  - rewrite !errors_is_Errno. cbn. rewrite orb_false_r.
    intros ->. apply orb_true_r.
  - discriminate.
  - rewrite !errors_is_SyscallError. exact IH.
  - discriminate.
  - discriminate.
  - rewrite !errors_is_PidfdError. cbn. exact IH.
Qed.

(** C9.  The [Is] method of [Error] answers true for one target only,
    [os.ErrNotExist], and then exactly when the wrapped error is or wraps
    [esrch]; for every other target it answers false, [os.ErrPermission]
    included.  [errors.Is] of an [Error] against [os.ErrPermission] is
    therefore decided by the chain [Unwrap] opens, never by the method. *)
Theorem Error_Is_NotExist_only (e : Error) (target : error) :
  (Error_Is e target = true <->
     target = Sentinel os_ErrNotExist
     /\ errors_Is (Err e) (Some esrch) = true)
  /\ Error_Is e (Sentinel os_ErrPermission) = false
  /\ errors_Is (Some (PidfdError e)) (Some (Sentinel os_ErrPermission))
     = errors_Is (Error_Unwrap e) (Some (Sentinel os_ErrPermission)).
Proof.
  split; [| split].
  - split.
    + destruct target as [n | [] | ? ? | ? | ?]; cbn; try discriminate.
      intros H. split; [reflexivity | exact H].
    + intros [-> H]. exact H.
  - reflexivity.
  - cbn [errors_Is]. rewrite errors_is_PidfdError. reflexivity.
Qed.

Example Error_Is_ESRCH :
  Error_Is (mkError 3 42 (Some (Errno Unix.ESRCH))) (Sentinel os_ErrNotExist) = true.
Proof. reflexivity. Qed.

Example Error_Is_ESRCH_wrapped :
  Error_Is (mkError 3 42 (Some (SyscallError "pidfd_send_signal" (Errno Unix.ESRCH))))
           (Sentinel os_ErrNotExist) = true.
Proof. reflexivity. Qed.

Example Error_Is_EPERM_false :
  Error_Is (mkError 3 1 (Some (Errno Unix.EPERM))) (Sentinel os_ErrPermission) = false
  /\ errors_Is (Some (PidfdError (mkError 3 1 (Some (Errno Unix.EPERM)))))
               (Some (Sentinel os_ErrPermission)) = true.
Proof. split; reflexivity. Qed.

(** ** open *)

(** C6.  When pidfd_open(2) fails, [Open] returns an [Error] with the given
    pid, no descriptor number (zero: there is none yet) and that failure as
    its cause; when the failure is or wraps ESRCH, the process does not
    exist, [errors.Is(err, os.ErrNotExist)] holds.  When [socket.New] or
    [SyscallConn] fails, [Open] returns that failure as it is.  [Open]
    fails in no other way. *)
Theorem Open_failures (env : opener) (pid : Z) :
  (forall cause,
      unix_PidfdOpen env pid Unix.PIDFD_NONBLOCK = inr cause ->
      errors_is cause esrch = true ->
      exists e : Error,
        Open env pid = inr (PidfdError e)
        /\ PID e = pid /\ FD e = 0 /\ Error_Unwrap e = Some cause
        /\ errors_Is (Some (PidfdError e)) (Some (Sentinel os_ErrNotExist)) = true)
  /\ (forall cause,
      unix_PidfdOpen env pid Unix.PIDFD_NONBLOCK = inr cause ->
      Open env pid = inr (PidfdError (mkError 0 pid (Some cause))))
  /\ (forall fd err,
      unix_PidfdOpen env pid Unix.PIDFD_NONBLOCK = inl fd ->
      socket_New env fd "pidfd" = inr err ->
      Open env pid = inr err)
  /\ (forall fd c err,
      unix_PidfdOpen env pid Unix.PIDFD_NONBLOCK = inl fd ->
      socket_New env fd "pidfd" = inl c ->
      SyscallConn env c = Some err ->
      Open env pid = inr err)
  /\ (forall err,
      Open env pid = inr err ->
      (exists cause,
          unix_PidfdOpen env pid Unix.PIDFD_NONBLOCK = inr cause
          /\ err = PidfdError (mkError 0 pid (Some cause)))
      \/ (exists fd,
          unix_PidfdOpen env pid Unix.PIDFD_NONBLOCK = inl fd
          /\ (socket_New env fd "pidfd" = inr err
              \/ exists c, socket_New env fd "pidfd" = inl c
                           /\ SyscallConn env c = Some err))).
Proof.
  unfold Open, open.
  repeat split.
  - intros cause -> Hsrch.
    exists (mkError 0 pid (Some cause)).
    repeat split.
    cbn [errors_Is]. rewrite errors_is_PidfdError.
    unfold Error_Is, errors_Is. cbn [Err]. rewrite Hsrch. reflexivity.
  - intros cause ->. reflexivity.
  - intros fd err -> ->. reflexivity.
  - intros fd c err -> -> ->. reflexivity.
  - intros err.
    destruct (unix_PidfdOpen env pid Unix.PIDFD_NONBLOCK) as [fd | cause] eqn:Ho.
    + destruct (socket_New env fd "pidfd") as [c | e1] eqn:Hn.
      * destruct (SyscallConn env c) as [e2 |] eqn:Hc; [| discriminate].
        intros [= <-]. right. exists fd. split; [reflexivity |].
        right. exists c. split; [exact Hn | exact Hc].
      * intros [= <-]. right. exists fd. split; [reflexivity |]. left. exact Hn.
    + intros [= <-]. left. exists cause. split; reflexivity.
Qed.

(** [TestOpenNotExist]. *)
Lemma Open_failures_witness :
  exists e : Error,
    Open two_processes 12345678 = inr (PidfdError e)
    /\ PID e = 12345678 /\ FD e = 0 /\ Error_Unwrap e = Some (Errno Unix.ESRCH)
    /\ errors_Is (Some (PidfdError e)) (Some (Sentinel os_ErrNotExist)) = true.
Proof.
  apply (proj1 (Open_failures two_processes 12345678) (Errno Unix.ESRCH));
    reflexivity.
Defined.

Example Open_init :
  Open two_processes 1 = inl (mkFile 1 (mkConn 3 Time_zero false)).
Proof. reflexivity. Qed.

(** ** sendSignal *)


(** What [wrap] returns on an open descriptor. *)
Lemma wrap_open (f : File) (e : error) :
  closed (c f) = false ->
  wrap f (Some e) = Some (PidfdError (mkError (sysfd (c f)) (pid f) (Some e))).
Proof. intros H. unfold wrap, Control. rewrite H. reflexivity. Qed.


(** The error [wrap] makes is classified by its cause: it is
    [os.ErrNotExist] when the cause is or wraps ESRCH, [os.ErrPermission]
    when the cause is or wraps EPERM. *)
Lemma wrap_classified (f : File) (cause : error) :
  (errors_is cause esrch = true ->
   errors_Is (wrap f (Some cause)) (Some (Sentinel os_ErrNotExist)) = true)
  /\ (errors_is cause (Errno Unix.EPERM) = true ->
      errors_Is (wrap f (Some cause)) (Some (Sentinel os_ErrPermission)) = true).
Proof.
  unfold wrap. cbn [errors_Is]. rewrite !errors_is_PidfdError.
  unfold Error_Is, Error_Unwrap, errors_Is. cbn [Err].
  split.
  - intros ->. reflexivity.
  - intros H. apply wraps_EPERM_is_ErrPermission. exact H.
Qed.

(** A delivery the kernel refuses with [errno], on an open descriptor. *)
Lemma SendSignal_refused (kill : Z -> Z -> Z -> option Z) (f : File)
    (ssig errno : Z) :
  closed (c f) = false ->
  kill (sysfd (c f)) ssig 0 = Some errno ->
  fst (SendSignal kill f (unix_Signal ssig))
  = Some (PidfdError
            (mkError (sysfd (c f)) (pid f)
               (Some (SyscallError "pidfd_send_signal" (Errno errno))))).
Proof.
  intros Hopen Hkill.
  unfold SendSignal, sendSignal, PidfdSendSignal.
  rewrite Hopen, Hkill. cbn [option_map os_NewSyscallError fst].
  apply (wrap_open f _ Hopen).
Qed.




(** C8.  When the kernel refuses the delivery with EPERM, the caller lacks
    the privilege, [SendSignal] returns an [Error] with the handle's pid
    and descriptor number whose cause is the [*os.SyscallError] of
    ["pidfd_send_signal"] around EPERM;
    [errors.Is(err, os.ErrPermission)] holds, through the cause and not
    through the [Is] method of [Error]. *)
Theorem SendSignal_permission (kill : Z -> Z -> Z -> option Z) (f : File)
    (ssig : Z) :
  closed (c f) = false ->
  kill (sysfd (c f)) ssig 0 = Some Unix.EPERM ->
  exists e : Error,
    fst (SendSignal kill f (unix_Signal ssig)) = Some (PidfdError e)
    /\ PID e = pid f
    /\ FD e = sysfd (c f)
    /\ Error_Unwrap e = Some (SyscallError "pidfd_send_signal" (Errno Unix.EPERM))
    /\ errors_Is (Error_Unwrap e) (Some (Errno Unix.EPERM)) = true
    /\ errors_Is (Some (PidfdError e)) (Some (Sentinel os_ErrPermission)) = true
    /\ Error_Is e (Sentinel os_ErrPermission) = false.
Proof.
  intros Hopen Hkill.
  eexists. split; [exact (SendSignal_refused kill f ssig _ Hopen Hkill) |].
  cbn [PID FD Err Error_Unwrap].
  repeat split.
Qed.

(** [TestFileSendSignalInitErrors]. *)
Lemma SendSignal_permission_witness :
  exists e : Error,
    fst (SendSignal unprivileged init_File (unix_Signal Unix.SIGUSR2))
    = Some (PidfdError e)
    /\ PID e = 1
    /\ FD e = 3
    /\ Error_Unwrap e = Some (SyscallError "pidfd_send_signal" (Errno Unix.EPERM))
    /\ errors_Is (Error_Unwrap e) (Some (Errno Unix.EPERM)) = true
    /\ errors_Is (Some (PidfdError e)) (Some (Sentinel os_ErrPermission)) = true
    /\ Error_Is e (Sentinel os_ErrPermission) = false.
Proof.
  apply (SendSignal_permission unprivileged init_File Unix.SIGUSR2);
    reflexivity.
Defined.

(** ** wait: the function passed to the poller *)

Lemma is_errno_true (err : option error) (e : Z) :
  is_errno err e = true <-> err = Some (Errno e).
Proof.
  unfold is_errno, same.
  destruct err as [[n | | | |] |]; split; try discriminate; try congruence.
  - intros H. apply Z.eqb_eq in H. congruence.
  - intros [= ->]. apply Z.eqb_refl.
Qed.

(** waitid(2) with the options [wait] passes: the kernel is left as it
    was, and the answer tells whether the process has exited. *)
Lemma Waitid_WEXITED_WNOWAIT (k : kernel) (fd : Z) :
  Waitid k Unix.P_PIDFD fd (Z.lor Unix.WEXITED Unix.WNOWAIT)
  = (if negb (child k) then Some (Errno Unix.ECHILD)
     else match target k with
          | Running => Some (Errno Unix.EAGAIN)
          | Zombie => None
          | Reaped => Some (Errno Unix.ECHILD)
          end,
     k).
Proof.
  unfold Waitid.
  change (Unix.P_PIDFD =? Unix.P_PIDFD) with true.
  change (Z.land (Z.lor Unix.WEXITED Unix.WNOWAIT) Unix.WEXITED =? 0) with false.
  change (Z.land (Z.lor Unix.WEXITED Unix.WNOWAIT) Unix.WNOWAIT =? 0) with false.
  cbn [negb].
  destruct (child k); cbn [negb]; [| reflexivity].
  destruct (target k); reflexivity.
Qed.

(** Without [WNOWAIT] the same call collects the exit status: the process
    is reaped, and a second call finds nothing to wait for. *)
Lemma Waitid_WEXITED_reaps (now fd : Z) :
  let k := mkKernel Zombie true now in
  Waitid k Unix.P_PIDFD fd Unix.WEXITED = (None, reap k)
  /\ fst (Waitid (reap k) Unix.P_PIDFD fd Unix.WEXITED)
     = Some (Errno Unix.ECHILD).
Proof. split; reflexivity. Qed.

Lemma wait_fn_eq (k : kernel) (fd : Z) (werr : option error) :
  let options := Z.lor Unix.WEXITED Unix.WNOWAIT in
  let err := fst (Waitid k Unix.P_PIDFD fd options) in
  wait_fn k fd werr
  = (negb (is_errno err Unix.EAGAIN),
     if is_errno err Unix.EAGAIN then werr else err,
     k,
     [sys_waitid Unix.P_PIDFD fd options]).
Proof.
  cbn zeta. unfold wait_fn. rewrite Waitid_WEXITED_WNOWAIT. cbn [fst].
  destruct (is_errno _ Unix.EAGAIN); reflexivity.
Qed.

#[global] Arguments Waitid : simpl never.
#[global] Arguments wait_fn : simpl never.
#[global] Arguments passed : simpl never.

(** ** wait: what every schedule preserves *)

Lemma exec_app (s1 s2 : list action) (s : state) :
  exec (s1 ++ s2) s
  = match exec s1 s with
    | Some s' => exec s2 s'
    | None => None
    end.
Proof.
  revert s. induction s1 as [| a s1 IH]; intros s; cbn; [reflexivity |].
  destruct (step a s); [apply IH | reflexivity].
Qed.

(** A property every step preserves holds along every schedule. *)
Lemma exec_preserves (P : state -> Prop) :
  (forall a s s', P s -> step a s = Some s' -> P s') ->
  forall sched s s', P s -> exec sched s = Some s' -> P s'.
Proof.
  intros Hstep sched.
  induction sched as [| a sched IH]; intros s s' HP Hexec; cbn in Hexec.
  - injection Hexec as <-. exact HP.
  - destruct (step a s) as [s1 |] eqn:Hs; [| discriminate].
    exact (IH s1 s' (Hstep a s s1 HP Hs) Hexec).
Qed.

(** Case analysis of one step: every transition of [step], on a state
    taken apart. *)
Ltac step_cases H :=
  match type of H with
  | step ?a ?s = Some _ =>
      destruct s as [k0 cn0 par cx n pc w re we ce se rt lg];
      destruct a as [[|] | | e |]; cbn in H;
      [ destruct pc as [| | | [| |] | | | | | | | |]; cbn in H
      | destruct w; cbn in H
      | destruct pc as [| | | [| |] | | | | | | | |]; cbn in H
      | destruct par; cbn in H
      | destruct (target k0) eqn:?; cbn in H ];
      try discriminate H;
      unfold SetReadDeadline in H;
      repeat match type of H with
        | context [if ?b then _ else _] => destruct b eqn:?; cbn in H
        | context [match ?x with _ => _ end] => destruct x eqn:?; cbn in H
        end;
      try discriminate H;
      try match goal with
          | E : wait_fn _ _ _ = _ |- _ =>
              rewrite wait_fn_eq in E;
              let E1 := fresh "Hstop" in
              injection E as E1 <- <- <-
          end;
      injection H as <-
  end.

(** Whatever program counter is still a variable is taken apart. *)
Ltac pcs :=
  repeat match goal with
         | x : main_pc |- _ => destruct x
         | x : poll_pc |- _ => destruct x
         | x : watcher_pc |- _ => destruct x
         end;
  cbn in *.

(** Hypotheses guarded by a comparison of line numbers are discharged or
    dropped. *)
Ltac prune :=
  repeat match goal with
         | H : _ /\ _ |- _ => destruct H
         | H : ?P -> _, HP : ?P |- _ => specialize (H HP)
         | H : ?P -> _ |- _ =>
             let HP := fresh in
             first [ assert (HP : P) by lia; specialize (H HP); clear HP
                   | assert (HP : ~ P) by lia; clear H HP ]
         end.

Ltac finish :=
  prune; repeat split; intros; subst;
  try lia; try congruence; try reflexivity; auto;
  try solve [prune; lia];
  try solve [match goal with
             | |- ?b = false => destruct b eqn:?; [exfalso; prune; lia | reflexivity]
             end];
  try solve [cbn in *; intuition congruence].

Lemma control_step (a : action) (s s' : state) :
  control s -> step a s = Some s' -> control s'.
Proof.
  unfold control. intros HP H.
  step_cases H; cbn in *; pcs; finish.
Qed.

Lemma context_ok_step (a : action) (s s' : state) :
  context_ok s -> step a s = Some s' -> context_ok s'.
Proof.
  unfold context_ok. intros HP H.
  step_cases H; cbn in *; subst; cbn in *;
    try (destruct cx; cbn in * ); finish.
Qed.

Lemma selected_step (a : action) (s s' : state) :
  selected s -> step a s = Some s' -> selected s'.
Proof.
  unfold selected. intros HP H.
  step_cases H; pcs; intros; try lia; try (apply HP; lia); reflexivity.
Qed.

Lemma descriptor_step (c0 : Conn) (a : action) (s s' : state) :
  control s /\ descriptor c0 s -> step a s = Some s' ->
  control s' /\ descriptor c0 s'.
Proof.
  intros [HC HP] H. split; [exact (control_step a s s' HC H) |].
  unfold control, descriptor in *.
  step_cases H; cbn in *; finish.
  all: pcs; finish.
Qed.

Lemma kernel_ok_step (ki : kernel) (a : action) (s s' : state) :
  kernel_ok ki s -> step a s = Some s' -> kernel_ok ki s'.
Proof.
  unfold kernel_ok. intros HP H.
  step_cases H; cbn in *; finish.
Qed.

Lemma log_ok_step (a : action) (s s' : state) :
  control s /\ log_ok s -> step a s = Some s' -> control s' /\ log_ok s'.
Proof.
  intros [HC HP] H. split; [exact (control_step a s s' HC H) |].
  unfold control, log_ok in *.
  step_cases H; cbn in *; finish.
  all: pcs; finish.
Qed.

Lemma wait_reaches (f : File) (k0 : kernel) (parent : option ctx_error)
    (sched : list action) (s : state) :
  wait f k0 parent sched = Some s -> reachable_ok f k0 s.
Proof.
  unfold wait.
  apply (exec_preserves (reachable_ok f k0)).
  - intros a s1 s2 (HC & HX & HS & HD & HK & HL) Hstep.
    refine (conj _ (conj _ (conj _ (conj _ (conj _ _))))).
    + exact (control_step _ _ _ HC Hstep).
    + exact (context_ok_step _ _ _ HX Hstep).
    + exact (selected_step _ _ _ HS Hstep).
    + exact (proj2 (descriptor_step _ _ _ _ (conj HC HD) Hstep)).
    + exact (kernel_ok_step _ _ _ _ HK Hstep).
    + exact (proj2 (log_ok_step _ _ _ (conj HC HL) Hstep)).
  - unfold reachable_ok, control, context_ok, selected, descriptor,
      kernel_ok, log_ok, enter; cbn.
    repeat split; intros; try lia; try congruence; auto.
    intuition discriminate.
Qed.

Lemma returned_line (s : state) : returned s = true -> line (mpc s) = 119.
Proof. unfold returned. destruct (mpc s); try discriminate. reflexivity. Qed.

(** ** wait: which error it returns *)

Lemma first_error_priority (cerr rerr werr serr : option error) :
  let r := first_error [cerr; rerr; werr; serr] in
  (forall e, cerr = Some e -> r = Some e)
  /\ (cerr = None -> forall e, rerr = Some e -> r = Some e)
  /\ (cerr = None -> rerr = None -> forall e, werr = Some e -> r = Some e)
  /\ (cerr = None -> rerr = None -> werr = None -> r = serr)
  /\ (r = None <-> cerr = None /\ rerr = None /\ werr = None /\ serr = None).
Proof.
  destruct cerr, rerr, werr, serr; cbn;
    repeat split; intros; try congruence; intuition congruence.
Qed.



(** C10.  When [Wait] returns after line 105 found the context done, it
    returns the error of the caller's context itself, [context.Canceled]
    or [context.DeadlineExceeded]: not an [Error], and with no [Error] in
    its chain, so no pid and no descriptor number come with it. *)
Theorem Wait_context_error_bare (f : File) (k0 : kernel)
    (cx : option ctx_error) (sched : list action) (s : state) :
  Wait f k0 cx sched = Some s ->
  returned s = true ->
  cerr s <> None ->
  exists e : ctx_error,
    parent s = Some e
    /\ ret s = Some (ctx_Err e)
    /\ (ret s = Some (Sentinel context_Canceled)
        \/ ret s = Some (Sentinel context_DeadlineExceeded))
    /\ (forall pe : Error, ret s <> Some (PidfdError pe))
    /\ errors_As_Error (ctx_Err e) = None.
Proof.
  intros Hw Hret Hc.
  destruct (wait_reaches _ _ _ _ _ Hw) as (_ & HX & HS & _).
  apply returned_line in Hret.
  unfold selected in HS. rewrite HS by lia.
  destruct HX as (_ & _ & _ & _ & _ & [Hn | Hp]); [contradiction |].
  destruct (parent s) as [e |] eqn:Hpar; [| rewrite Hp in Hc; contradiction].
  exists e. rewrite Hp. cbn.
  destruct e; cbn; repeat split; auto; discriminate.
Qed.

Lemma Wait_context_error_bare_witness :
  exists s,
    Wait sleeper sleeping None cancel_and_exit = Some s
    /\ ret s = Some (Sentinel context_Canceled)
    /\ forall pe : Error, ret s <> Some (PidfdError pe).
Proof.
  eexists. split; [vm_compute; reflexivity |].
  split; [reflexivity |].
  destruct (Wait_context_error_bare sleeper sleeping None cancel_and_exit
              _ ltac:(vm_compute; reflexivity) eq_refl
              ltac:(discriminate))
    as (e & _ & _ & _ & H & _).
  exact H.
Defined.

(** ** wait: the join comes before the clear *)

Lemma existsb_In_false {A : Type} (p : A -> bool) (l : list A) (x : A) :
  existsb p l = false -> In x l -> p x = false.
Proof.
  intros H Hin.
  destruct (p x) eqn:Hp; [| reflexivity].
  assert (existsb p l = true) by (apply existsb_exists; exists x; auto).
  congruence.
Qed.

Lemma ordered_app (later earlier : list event) :
  ordered (later ++ earlier) -> ordered earlier.
Proof.
  induction later as [| ev later IH]; cbn; [auto |].
  intros (_ & _ & _ & _ & H). exact (IH H).
Qed.

(** In an ordered log, nothing after a clear is a write of the watcher. *)
Lemma ordered_after_clear (later earlier : list event) (ev : event) :
  ordered (later ++ ev :: earlier) -> is_clear ev = true ->
  existsb is_force later = false.
Proof.
  intros H Hev.
  induction later as [| x later IH]; cbn in *; [reflexivity |].
  destruct H as (Hf & _ & _ & _ & H).
  rewrite (IH H), orb_false_r.
  destruct (is_force x); [| reflexivity].
  specialize (Hf eq_refl).
  rewrite existsb_app in Hf. cbn in Hf. rewrite Hev in Hf.
  cbn in Hf. rewrite orb_true_r in Hf. discriminate.
Qed.

(** C5.  In every execution of [wait], the calling goroutine passes
    [wg.Wait()] (line 107) only after the watcher's [wg.Done()], which
    follows the watcher's [SetReadDeadline]; it clears the deadline (line
    108) only after it passed [wg.Wait()]; from then on the watcher has
    exited, and no [SetReadDeadline] of the watcher comes after the
    clear. *)
Theorem wait_joins_before_clear (f : File) (k0 : kernel)
    (cx : option ctx_error) (sched : list action) (s : state) :
  wait f k0 cx sched = Some s ->
  (108 <= line (mpc s) -> wpc s = G_exited /\ wg s = 0)
  /\ (forall later earlier t,
      log s = later ++ ev_SetReadDeadline main t :: earlier ->
      (forall t', ~ In (ev_SetReadDeadline watcher t') later)
      /\ In ev_wg_Wait earlier)
  /\ (forall later earlier,
      log s = later ++ ev_wg_Wait :: earlier -> In ev_wg_Done earlier)
  /\ (forall later earlier,
      log s = later ++ ev_wg_Done :: earlier ->
      exists t, In (ev_SetReadDeadline watcher t) earlier).
Proof.
  intros Hw.
  destruct (wait_reaches _ _ _ _ _ Hw) as (HC & _ & _ & _ & _ & Hord & _).
  split; [| split; [| split]].
  - unfold control in HC. intros Hl.
    destruct (mpc s) as [| | | p | | | | | | | |]; cbn in Hl; try lia; exact HC.
  - intros later earlier t Hlog. rewrite Hlog in Hord. split.
    + intros t' Hin.
      pose proof (ordered_after_clear _ _ _ Hord eq_refl) as Hno.
      pose proof (existsb_In_false _ _ _ Hno Hin) as Hf. discriminate.
    + apply ordered_app in Hord. cbn in Hord.
      destruct Hord as (_ & Hj & _). specialize (Hj eq_refl).
      apply existsb_exists in Hj. destruct Hj as ([] & Hin & Hx);
        try discriminate. exact Hin.
  - intros later earlier Hlog. rewrite Hlog in Hord.
    apply ordered_app in Hord. cbn in Hord.
    destruct Hord as (_ & _ & Hd & _). specialize (Hd eq_refl).
    apply existsb_exists in Hd. destruct Hd as ([] & Hin & Hx);
      try discriminate. exact Hin.
  - intros later earlier Hlog. rewrite Hlog in Hord.
    apply ordered_app in Hord. cbn in Hord.
    destruct Hord as (_ & _ & _ & Hd & _). specialize (Hd eq_refl).
    apply existsb_exists in Hd. destruct Hd as ([| | | [|] t | |] & Hin & Hx);
      try discriminate. exists t. exact Hin.
Qed.

(** [TestFileWaitProcessExitContextCanceled], with the exit in between. *)
Lemma wait_joins_before_clear_witness :
  exists s,
    wait sleeper sleeping None cancel_and_exit = Some s
    /\ wpc s = G_exited
    /\ log s
       = [ev_SetReadDeadline main Time_zero; ev_wg_Wait; ev_wg_Done;
          ev_SetReadDeadline watcher (time_Unix 0 1);
          ev_fn true;
          ev_syscall (sys_waitid Unix.P_PIDFD 3
                        (Z.lor Unix.WEXITED Unix.WNOWAIT));
          ev_go].
Proof.
  eexists. split; [vm_compute; reflexivity |].
  split; [| reflexivity].
  refine (proj1 (proj1 (wait_joins_before_clear sleeper sleeping None
                          cancel_and_exit _ _) _)).
  - vm_compute. reflexivity.
  - cbn. lia.
Defined.

(** ** wait: the function passed to the poller, in place *)

(** C4.  Each time the poller calls the function [wait] gave it (whether
    or not the context is done), the function asks waitid(2) about the
    pidfd with [WEXITED|WNOWAIT]: the kernel is left as it was, so the
    exit status stays to be collected and the same question gets the same
    answer.  On EAGAIN, the process still runs, the function returns false
    and the poller parks; on any other answer, nil (the process has
    exited) or an error, [werr] records the answer, the function returns
    true and [Read] returns nil. *)
Theorem wait_fn_exit_check (s : state) :
  mpc s = L91 Call ->
  let options := Z.lor Unix.WEXITED Unix.WNOWAIT in
  let answer := fst (Waitid (k s) Unix.P_PIDFD (sysfd (cn s)) options) in
  exists s',
    step (run main) s = Some s'
    /\ log s'
       = ev_fn (negb (is_errno answer Unix.EAGAIN))
           :: ev_syscall (sys_waitid Unix.P_PIDFD (sysfd (cn s)) options)
           :: log s
    /\ Z.land options Unix.WNOWAIT = Unix.WNOWAIT
    /\ k s' = k s
    /\ fst (Waitid (k s') Unix.P_PIDFD (sysfd (cn s')) options) = answer
    /\ (answer = Some (Errno Unix.EAGAIN) ->
        mpc s' = L91 Park /\ werr s' = werr s)
    /\ (answer <> Some (Errno Unix.EAGAIN) ->
        mpc s' = L105 /\ werr s' = answer /\ rerr s' = None)
    /\ (child (k s) = true ->
        (target (k s) = Running <-> answer = Some (Errno Unix.EAGAIN))
        /\ (target (k s) = Zombie <-> answer = None)).
Proof.
  intros Hpc options answer.
  destruct s as [k0 cn0 par cx n pc w re we ce se rt lg]. cbn in Hpc. subst pc.
  cbn [step step_main mpc k cn werr] in *.
  rewrite wait_fn_eq. fold options. fold answer.
  assert (Hk : child k0 = true ->
               (target k0 = Running <-> answer = Some (Errno Unix.EAGAIN))
               /\ (target k0 = Zombie <-> answer = None)).
  { intros Hc. subst answer options.
    rewrite Waitid_WEXITED_WNOWAIT, Hc. cbn.
    unfold Unix.ECHILD, Unix.EAGAIN.
    destruct (target k0); split; split; intros; congruence. }
  destruct (is_errno answer Unix.EAGAIN) eqn:Hans; cbn [negb].
  - apply is_errno_true in Hans.
    eexists. split; [reflexivity |]. cbn.
    repeat split; try (apply Hk; assumption); congruence.
  - assert (answer <> Some (Errno Unix.EAGAIN)).
    { intros E. apply is_errno_true in E. congruence. }
    eexists. split; [reflexivity |]. cbn.
    repeat split; try (apply Hk; assumption); congruence.
Qed.

Lemma wait_fn_exit_check_witness :
  exists s,
    wait sleeper sleeping None [run main; run main; run main; run main] = Some s
    /\ exists s',
      step (run main) s = Some s'
      /\ mpc s' = L91 Park /\ k s' = k s /\ werr s' = None.
Proof.
  eexists. split; [vm_compute; reflexivity |].
  match goal with
  | |- exists s', step _ ?s = _ /\ _ =>
      destruct (wait_fn_exit_check s eq_refl)
        as (s' & Hs & _ & _ & Hk & _ & Hpark & _)
  end.
  exists s'. split; [exact Hs |].
  destruct (Hpark eq_refl) as [Hp Hw].
  split; [exact Hp |]. split; [exact Hk | exact Hw].
Defined.

Lemma settled_step (e0 : ctx_error) (a : action) (s s' : state) :
  settled e0 s -> step a s = Some s' -> settled e0 s'.
Proof.
  unfold settled. intros HP H.
  step_cases H; cbn in *; finish.
  all: destruct HP as (-> & _); cbn; finish.
Qed.

(** C3, as stated, fails: with the context already canceled and the
    process running, the function [wait] gave the poller still calls
    waitid(2), and returns false (keep waiting), not true. *)
Lemma wait_fn_called_when_canceled :
  exists s s',
    Wait sleeper sleeping (Some Canceled) main_first = Some s
    /\ mpc s = L91 Call
    /\ ctx s = Some Canceled
    /\ step (run main) s = Some s'
    /\ mpc s' = L91 Park
    /\ log s'
       = [ev_fn false;
          ev_syscall (sys_waitid Unix.P_PIDFD 3 (Z.lor Unix.WEXITED Unix.WNOWAIT));
          ev_go].
Proof.
  eexists. eexists.
  split; [vm_compute; reflexivity |].
  split; [reflexivity |]. split; [reflexivity |].
  split; [vm_compute; reflexivity |].
  split; reflexivity.
Qed.

(** C3, amended.  The function [wait] gives the poller does not look at
    the context: when the context is already done as the function runs,
    it still asks waitid(2) (the exit check, which consumes nothing), and
    it returns by the answer alone, false on EAGAIN and true otherwise,
    as it would with a live context.  The context decides afterwards:
    however the execution goes on, a [Wait] that returns then returns the
    context's error. *)
Theorem wait_fn_ignores_context (s : state) (e : ctx_error) :
  mpc s = L91 Call ->
  ctx s = Some e ->
  let options := Z.lor Unix.WEXITED Unix.WNOWAIT in
  let answer := fst (Waitid (k s) Unix.P_PIDFD (sysfd (cn s)) options) in
  exists s',
    step (run main) s = Some s'
    /\ log s'
       = ev_fn (negb (is_errno answer Unix.EAGAIN))
           :: ev_syscall (sys_waitid Unix.P_PIDFD (sysfd (cn s)) options)
           :: log s
    /\ k s' = k s
    /\ mpc s' = (if is_errno answer Unix.EAGAIN then L91 Park else L105)
    /\ (forall cx', step (run main) (set_ctx cx' s) = Some (set_ctx cx' s'))
    /\ (forall sched s'',
        exec sched s' = Some s'' -> returned s'' = true ->
        ret s'' = Some (ctx_Err e)).
Proof.
  intros Hpc Hctx options answer.
  destruct s as [k0 cn0 par cx n pc w re we ce se rt lg].
  cbn in Hpc, Hctx. subst pc cx.
  cbn [step step_main mpc k cn werr set_ctx parent ctx wg wpc rerr cerr serr
       ret log] in *.
  rewrite wait_fn_eq. fold options. fold answer.
  assert (Hsettle : forall s1 sched s'',
             settled e s1 -> exec sched s1 = Some s'' ->
             returned s'' = true -> ret s'' = Some (ctx_Err e)).
  { intros s1 sched s'' H1 Hexec Hret.
    apply returned_line in Hret.
    apply (exec_preserves (settled e) (settled_step e) sched s1 s'' H1 Hexec).
    lia. }
  destruct (is_errno answer Unix.EAGAIN) eqn:Hans; cbn [negb];
    (eexists; split; [reflexivity |]);
    (split; [reflexivity |]); (split; [reflexivity |]);
    (split; [reflexivity |]); (split; [reflexivity |]);
    intros sched s''; apply Hsettle;
    unfold settled; cbn; repeat split; intros; lia.
Qed.

Lemma wait_fn_ignores_context_witness :
  exists s s',
    Wait sleeper sleeping (Some Canceled) main_first = Some s
    /\ step (run main) s = Some s'
    /\ mpc s' = L91 Park
    /\ forall sched s'',
        exec sched s' = Some s'' -> returned s'' = true ->
        ret s'' = Some (Sentinel context_Canceled).
Proof.
  eexists.
  match goal with
  | |- exists s', ?W = Some ?s /\ _ =>
      assert (Hw : W = Some s) by (vm_compute; reflexivity);
      destruct (wait_fn_ignores_context s Canceled eq_refl eq_refl)
        as (s' & Hs & _ & _ & Hpc & _ & Hret)
  end.
  exists s'. split; [exact Hw |]. split; [exact Hs |].
  split; [exact Hpc | exact Hret].
Defined.

(** ** wait: one call after another on the same handle *)

Lemma exec_preserves_on (A : action -> Prop) (P : state -> Prop) :
  (forall a s s', A a -> P s -> step a s = Some s' -> P s') ->
  forall sched s s',
    Forall A sched -> P s -> exec sched s = Some s' -> P s'.
Proof.
  intros Hstep sched.
  induction sched as [| a sched IH]; intros s s' HA HP Hexec; cbn in Hexec.
  - injection Hexec as <-. exact HP.
  - destruct (step a s) as [s1 |] eqn:Hs; [| discriminate].
    inversion HA as [| ? ? Ha HA']; subst.
    exact (IH s1 s' HA' (Hstep a s s1 Ha HP Hs) Hexec).
Qed.

Lemma passed_nonzero (now : Z) (d : Time) :
  passed now d = true -> d <> Time_zero.
Proof. destruct d; [discriminate | discriminate]. Qed.

(** The exit check of a running child: EAGAIN, so the function returns
    false. *)
Lemma running_keeps_waiting (k0 : kernel) (fd : Z) :
  target k0 = Running -> child k0 = true ->
  negb (is_errno
          (fst (Waitid k0 Unix.P_PIDFD fd (Z.lor Unix.WEXITED Unix.WNOWAIT)))
          Unix.EAGAIN) = false.
Proof.
  intros Ht Hc. rewrite Waitid_WEXITED_WNOWAIT, Ht, Hc. reflexivity.
Qed.

(** The exit check of a child that has exited: nil, so the function
    returns true. *)
Lemma exited_stops (k0 : kernel) (fd : Z) :
  target k0 = Zombie -> child k0 = true ->
  fst (Waitid k0 Unix.P_PIDFD fd (Z.lor Unix.WEXITED Unix.WNOWAIT)) = None.
Proof.
  intros Ht Hc. rewrite Waitid_WEXITED_WNOWAIT, Ht, Hc. reflexivity.
Qed.

Lemma while_running_step (a : action) (s s' : state) :
  a <> exits ->
  context_ok s /\ while_running s -> step a s = Some s' ->
  context_ok s' /\ while_running s'.
Proof.
  intros Ha [HX HP] H. split; [exact (context_ok_step a s s' HX H) |].
  unfold context_ok, while_running in *.
  step_cases H; cbn in *; try congruence;
    try match goal with
        | E : passed _ _ = true |- _ => apply passed_nonzero in E
        end;
    try match goal with
        | E : negb (is_errno _ _) = true |- _ =>
            rewrite running_keeps_waiting in E by tauto; discriminate
        end.
  all: finish.
  all: destruct par; cbn in *; congruence.
Qed.

Lemma once_exited_step (a : action) (s s' : state) :
  (forall e, a <> done e) ->
  once_exited s -> step a s = Some s' -> once_exited s'.
Proof.
  intros Ha HP H.
  unfold once_exited in *.
  step_cases H; cbn in *; try congruence;
    try (exfalso; eapply Ha; reflexivity).
  all: prune.
  all: try match goal with
           | E : passed _ _ = true |- _ => apply passed_nonzero in E
           end.
  all: repeat match goal with
         | Ht : target ?k0 = Zombie, Hc : child ?k0 = true |- _ =>
             match goal with
             | E : context [Waitid k0 ?a ?fd ?o] |- _ =>
                 rewrite (exited_stops k0 fd Ht Hc
                          : fst (Waitid k0 a fd o) = None) in E;
                 cbn in E
             | |- context [Waitid k0 ?a ?fd ?o] =>
                 rewrite (exited_stops k0 fd Ht Hc
                          : fst (Waitid k0 a fd o) = None);
                 cbn
             end
         end.
  all: try discriminate.
  all: finish.
Qed.

Lemma parent_step (a : action) (s s' : state) :
  step a s = Some s' ->
  parent s' = parent s \/ a = done Canceled /\ parent s' = Some Canceled
  \/ a = done DeadlineExceeded.
Proof.
  intros H. step_cases H; cbn; auto.
  all: destruct e; auto.
Qed.

Lemma parent_origin (sched : list action) (s s' : state) :
  exec sched s = Some s' ->
  parent s' = parent s \/ parent s' = Some Canceled
  \/ In (done DeadlineExceeded) sched.
Proof.
  revert s. induction sched as [| a sched IH]; intros s H; cbn in H.
  - injection H as <-. auto.
  - destruct (step a s) as [s1 |] eqn:Hs; [| discriminate].
    destruct (IH s1 H) as [E | [E | E]]; cbn; auto.
    destruct (parent_step a s s1 Hs) as [E1 | [[E1 E2] | E1]]; auto.
    + left. congruence.
    + right. left. congruence.
Qed.

Lemma Conn_eq (c1 c2 : Conn) :
  sysfd c1 = sysfd c2 -> rdeadline c1 = rdeadline c2 ->
  closed c1 = closed c2 -> c1 = c2.
Proof. destruct c1, c2; cbn; congruence. Qed.

Lemma kernel_eq (k1 k2 : kernel) :
  target k1 = target k2 -> child k1 = child k2 -> now k1 = now k2 ->
  k1 = k2.
Proof. destruct k1, k2; cbn; congruence. Qed.

(** A call that returns while the process still runs returns the error of
    its context, which is done, and leaves the handle and the kernel as it
    found them. *)
Lemma Wait_while_running (f : File) (k0 : kernel) (cx : option ctx_error)
    (sched : list action) (s : state) :
  Wait f k0 cx sched = Some s ->
  returned s = true ->
  Forall (fun a => a <> exits) sched ->
  target k0 = Running -> child k0 = true ->
  closed (c f) = false -> rdeadline (c f) = Time_zero ->
  parent s <> None
  /\ ret s = option_map ctx_Err (parent s)
  /\ cn s = c f /\ k s = k0.
Proof.
  intros Hw Hret Hsched Ht Hc Hopen Hzero.
  destruct (wait_reaches _ _ _ _ _ Hw) as (_ & _ & HS & HD & HK & _).
  pose proof (exec_preserves_on (fun a => a <> exits)
                (fun s => context_ok s /\ while_running s)
                (fun a s s' Ha => while_running_step a s s' Ha)
                sched (enter f k0 cx) s Hsched) as HR.
  apply returned_line in Hret.
  destruct HR as [HX (Ht' & Hc' & Hopen' & _ & _ & Hcerr)].
  - destruct (wait_reaches f k0 cx [] _ eq_refl) as (_ & HX0 & _).
    split; [exact HX0 |].
    unfold while_running, enter; cbn.
    repeat split; auto; intros; try lia; congruence.
  - exact Hw.
  - specialize (Hcerr ltac:(lia)).
    destruct HX as (_ & _ & _ & _ & _ & [Hn | Hp]); [contradiction |].
    unfold selected in HS. specialize (HS ltac:(lia)).
    destruct HD as (Hfd & Hcl & _ & Hdl).
    destruct HK as (Hch & Hnow & _).
    repeat split.
    + intros E. rewrite E in Hp. cbn in Hp. contradiction.
    + rewrite HS, Hp. destruct (parent s); [reflexivity | contradiction].
    + apply Conn_eq; auto. rewrite Hzero. apply Hdl; [exact Hopen | lia].
    + apply kernel_eq; auto. congruence.
Qed.

(** A call that returns once the process has exited, under a context that
    never ends, returns nil and leaves the handle and the kernel as it
    found them. *)
Lemma Wait_once_exited (f : File) (k0 : kernel) (sched : list action)
    (s : state) :
  Wait f k0 None sched = Some s ->
  returned s = true ->
  (forall e, ~ In (done e) sched) ->
  target k0 = Zombie -> child k0 = true ->
  closed (c f) = false -> rdeadline (c f) = Time_zero ->
  ret s = None /\ cn s = c f /\ k s = k0.
Proof.
  intros Hw Hret Hsched Ht Hc Hopen Hzero.
  destruct (wait_reaches _ _ _ _ _ Hw) as (_ & _ & _ & HD & HK & _).
  assert (HF : Forall (fun a => forall e, a <> done e) sched).
  { apply Forall_forall. intros a Hin e ->. exact (Hsched e Hin). }
  pose proof (exec_preserves_on (fun a => forall e, a <> done e) once_exited
                once_exited_step sched (enter f k0 None) s HF) as HR.
  apply returned_line in Hret.
  destruct HR as (_ & Ht' & _ & _ & _ & _ & _ & _ & _ & Hr & _).
  - unfold once_exited, enter; cbn.
    repeat split; auto; intros; try lia; discriminate.
  - exact Hw.
  - destruct HD as (Hfd & Hcl & _ & Hdl).
    destruct HK as (Hch & Hnow & _).
    repeat split.
    + apply Hr. lia.
    + apply Conn_eq; auto. rewrite Hzero. apply Hdl; [exact Hopen | lia].
    + apply kernel_eq; auto. congruence.
Qed.

Lemma Wait_once_exited_returns (f : File) (k0 : kernel) :
  target k0 = Zombie -> child k0 = true ->
  closed (c f) = false -> rdeadline (c f) = Time_zero ->
  exists s, Wait f k0 None main_then_watcher = Some s /\ returned s = true.
Proof.
  destruct f as [p [fd d cl]], k0 as [t ch nw].
  cbn [target child c closed rdeadline].
  intros -> -> -> ->.
  vm_compute. eexists. split; reflexivity.
Qed.

(** With the context canceled before the call, and the clock past
    [time.Unix(0, 1)], the poller refuses to wait and the call returns. *)
Lemma Wait_canceled_returns (f : File) (k0 : kernel) :
  1 <= now k0 ->
  target k0 = Running -> child k0 = true ->
  closed (c f) = false -> rdeadline (c f) = Time_zero ->
  exists s,
    Wait f k0 (Some Canceled) watcher_then_main = Some s /\ returned s = true.
Proof.
  destruct f as [p [fd d cl]], k0 as [t ch nw].
  cbn [now target child c closed rdeadline].
  intros Hnow -> -> -> ->.
  destruct nw as [| [q | q |] | q]; try lia;
    vm_compute; eexists; split; reflexivity.
Qed.

Lemma File_eta (f : File) : mkFile (pid f) (c f) = f.
Proof. destruct f; reflexivity. Qed.

(** Calls whose contexts end by cancellation, against a process that keeps
    running: each one that returns returns [context.Canceled], and the
    handle and the kernel come out as they went in. *)
Lemma Waits_while_running (calls : list call) :
  forall (f : File) (k0 : kernel) rs f1 k1,
    closed (c f) = false -> rdeadline (c f) = Time_zero ->
    target k0 = Running -> child k0 = true ->
    Forall canceled_while_running calls ->
    Waits f k0 calls = Some (rs, f1, k1) ->
    Forall (fun r => r = Some (Sentinel context_Canceled)) rs
    /\ List.length rs = List.length calls
    /\ f1 = f /\ k1 = k0.
Proof.
  induction calls as [| cl calls IH]; intros f k0 rs f1 k1 Ho Hz Ht Hc HF HW.
  - cbn in HW. injection HW as <- <- <-. auto.
  - cbn [Waits] in HW.
    destruct (Wait f k0 (call_ctx cl) (call_sched cl)) as [s |] eqn:Hw;
      [| discriminate].
    destruct (returned s) eqn:Hret; [| discriminate].
    inversion HF as [| ? ? (Hcx & Hnd & Hne) HF']; subst.
    destruct (Wait_while_running _ _ _ _ _ Hw Hret Hne Ht Hc Ho Hz)
      as (Hpar & Hres & Hcn & Hk).
    unfold after in HW. rewrite Hcn, Hk, File_eta in HW.
    destruct (Waits f k0 calls) as [[[rs' f2] k2] |] eqn:HW'; [| discriminate].
    injection HW as <- <- <-.
    destruct (IH _ _ _ _ _ Ho Hz Ht Hc HF' HW') as (Hrs & Hlen & Hf & Hk2).
    repeat split; auto; [| cbn; congruence].
    constructor; [| exact Hrs].
    rewrite Hres.
    destruct (parent_origin _ _ _ Hw) as [E | [E | E]].
    + cbn in E. rewrite E in *.
      destruct (call_ctx cl) as [[|] |]; try reflexivity; contradiction.
    + rewrite E. reflexivity.
    + contradiction.
Qed.

Lemma Waits_canceled_return (N : nat) (f : File) (k0 : kernel) :
  closed (c f) = false -> rdeadline (c f) = Time_zero ->
  target k0 = Running -> child k0 = true -> 1 <= now k0 ->
  exists rs,
    Waits f k0 (repeat (mkCall (Some Canceled) watcher_then_main) N)
    = Some (rs, f, k0).
Proof.
  intros Ho Hz Ht Hc Hnow.
  induction N as [| N [rs IH]]; cbn [repeat Waits call_ctx call_sched].
  - eexists. reflexivity.
  - destruct (Wait_canceled_returns f k0 Hnow Ht Hc Ho Hz) as (s & Hw & Hret).
    rewrite Hw, Hret.
    assert (Hne : Forall (fun a => a <> exits) watcher_then_main)
      by (repeat constructor; discriminate).
    destruct (Wait_while_running _ _ _ _ _ Hw Hret Hne Ht Hc Ho Hz)
      as (_ & _ & Hcn & Hk).
    unfold after. rewrite Hcn, Hk, File_eta, IH.
    eexists. reflexivity.
Qed.

(** C2.  Every call of [Wait] that returns, whatever it returns, leaves
    the descriptor without a read deadline.  So calls follow each other on
    one handle without a deadline left over from the call before: against
    a process that keeps running, any number of calls whose contexts are
    canceled each return [context.Canceled] if they return, and a later
    call, made once the process has exited and under a context that does
    not end, returns nil if it returns; and there are schedules under
    which all these calls do return. *)
Theorem Wait_leaves_no_deadline :
  (forall f k0 cx sched s,
      Wait f k0 cx sched = Some s ->
      returned s = true ->
      closed (c f) = false \/ rdeadline (c f) = Time_zero ->
      rdeadline (cn s) = Time_zero)
  /\ (forall f k0 calls rs f1 k1 last s,
      closed (c f) = false -> rdeadline (c f) = Time_zero ->
      target k0 = Running -> child k0 = true ->
      Forall canceled_while_running calls ->
      Waits f k0 calls = Some (rs, f1, k1) ->
      (forall e, ~ In (done e) last) ->
      Wait f1 (mkKernel Zombie (child k1) (now k1)) None last = Some s ->
      returned s = true ->
      Forall (fun r => r = Some (Sentinel context_Canceled)) rs
      /\ List.length rs = List.length calls
      /\ rdeadline (c f1) = Time_zero
      /\ ret s = None
      /\ rdeadline (cn s) = Time_zero)
  /\ (forall f k0 N,
      closed (c f) = false -> rdeadline (c f) = Time_zero ->
      target k0 = Running -> child k0 = true -> 1 <= now k0 ->
      exists rs f1 k1 s,
        Waits f k0 (repeat (mkCall (Some Canceled) watcher_then_main) N)
        = Some (rs, f1, k1)
        /\ Wait f1 (mkKernel Zombie (child k1) (now k1)) None main_then_watcher
           = Some s
        /\ returned s = true).
Proof.
  split; [| split].
  - intros f k0 cx sched s Hw Hret Hf.
    destruct (wait_reaches _ _ _ _ _ Hw) as (_ & _ & _ & HD & _).
    destruct HD as (_ & _ & Hcl & Hop).
    apply returned_line in Hret.
    destruct (closed (c f)) eqn:E.
    + destruct Hf as [Hf | Hf]; [discriminate |].
      rewrite (Hcl eq_refl). exact Hf.
    + apply Hop; [reflexivity | lia].
  - intros f k0 calls rs f1 k1 last s Ho Hz Ht Hc HF HW Hlast Hw Hret.
    destruct (Waits_while_running calls _ _ _ _ _ Ho Hz Ht Hc HF HW)
      as (Hrs & Hlen & -> & ->).
    destruct (Wait_once_exited _ _ _ _ Hw Hret Hlast eq_refl Hc Ho Hz)
      as (Hres & Hcn & _).
    repeat split; auto. rewrite Hcn. exact Hz.
  - intros f k0 N Ho Hz Ht Hc Hnow.
    destruct (Waits_canceled_return N f k0 Ho Hz Ht Hc Hnow) as [rs HW].
    destruct (Wait_once_exited_returns f (mkKernel Zombie (child k0) (now k0))
                eq_refl Hc Ho Hz) as (s & Hw & Hret).
    exists rs, f, k0, s. auto.
Qed.

(** [TestFileWaitRepeatedContextCanceled]: three calls that are canceled
    while the child sleeps, then the child is interrupted and a last call
    finds it exited. *)
Lemma Wait_leaves_no_deadline_witness :
  exists s,
    Waits sleeper sleeping
      (repeat (mkCall None canceled_while_parked) 3)
    = Some (repeat (Some (Sentinel context_Canceled)) 3, sleeper, sleeping)
    /\ Wait sleeper (mkKernel Zombie true (now sleeping)) None
         main_then_watcher = Some s
    /\ returned s = true
    /\ ret s = None
    /\ rdeadline (cn s) = Time_zero.
Proof.
  eexists.
  split; [vm_compute; reflexivity |].
  split; [vm_compute; reflexivity |].
  split; [reflexivity |].
  refine (proj2 (proj2 (proj2
    (proj1 (proj2 Wait_leaves_no_deadline)
       sleeper sleeping (repeat (mkCall None canceled_while_parked) 3)
       (repeat (Some (Sentinel context_Canceled)) 3) sleeper sleeping
       main_then_watcher _
       eq_refl eq_refl eq_refl eq_refl _ _ _ _ _)))).
  - repeat constructor; try discriminate;
      cbn; intuition discriminate.
  - vm_compute. reflexivity.
  - intros e H. cbn in H. intuition discriminate.
  - vm_compute. reflexivity.
  - reflexivity.
Defined.

(** ** wait: no deadlock *)

Lemma forced_step (a : action) (s s' : state) :
  forced s -> step a s = Some s' -> forced s'.
Proof.
  unfold forced. intros HP H.
  step_cases H; cbn in *; finish.
  all: pcs; finish.
Qed.

(** With the clock past [time.Unix(0, 1)], [wait] never gets stuck: until
    it has returned, one of its goroutines can step, except while [Read]
    is parked under a context that is not done.  In particular line 107
    waits for a watcher that can always finish, and a context that is
    done always gets a parked [Read] to return. *)
Lemma wait_progress (f : File) (k0 : kernel) (cx : option ctx_error)
    (sched : list action) (s : state) :
  1 <= now k0 ->
  wait f k0 cx sched = Some s ->
  returned s = true \/ waiting s \/ can_step s.
Proof.
  intros Hnow Hw.
  destruct (wait_reaches _ _ _ _ _ Hw) as (HC & HX & _ & _ & HK & _).
  assert (HF : forced s).
  { apply (exec_preserves forced forced_step sched (enter f k0 cx) s);
      [| exact Hw].
    unfold forced, enter; cbn. split; intros; [lia | intuition discriminate]. }
  destruct HK as (_ & Hclock & _). rewrite <- Hclock in Hnow.
  assert (Hpast : passed (now (k s)) (time_Unix 0 1) = true)
    by (apply Z.leb_le; exact Hnow).
  unfold control, context_ok, forced, waiting, can_step, returned in *.
  destruct s as [k1 cn1 par ctx1 n pc w re we ce se rt lg]; cbn in *.
  destruct pc as [| | | [| |] | | | | | | | |]; cbn in *;
    try (left; reflexivity);
    try (right; right; exists main; cbn; unfold SetReadDeadline;
         repeat match goal with
                | |- context [if ?b then _ else _] => destruct b
                | |- context [let '(_, _) := ?x in _] => destruct x
                end;
         eexists; reflexivity).
  - (* parked *)
    destruct ctx1 as [e |]; [| right; left; auto].
    right; right.
    destruct HF as [Hopen Hset]. specialize (Hopen eq_refl ltac:(discriminate)).
    destruct w; cbn in *.
    + destruct HC as [HC _]. contradiction.
    + exists watcher. cbn. eexists; reflexivity.
    + exists watcher. cbn. unfold SetReadDeadline. rewrite Hopen.
      eexists; reflexivity.
    + exists main. cbn.
      rewrite (Hset Hopen (or_introl eq_refl) ltac:(lia)), Hpast.
      eexists; reflexivity.
    + exists main. cbn.
      rewrite (Hset Hopen (or_intror eq_refl) ltac:(lia)), Hpast.
      eexists; reflexivity.
  - (* line 107 *)
    right; right.
    destruct HC as [Hborn Hwg].
    destruct HX as (_ & _ & Hdone & _). specialize (Hdone ltac:(lia)).
    destruct w; cbn in *; subst n.
    + contradiction.
    + exists watcher. cbn. destruct ctx1; [eexists; reflexivity | contradiction].
    + exists watcher. cbn. unfold SetReadDeadline.
      destruct (closed cn1); eexists; reflexivity.
    + exists watcher. cbn. eexists; reflexivity.
    + exists main. cbn. eexists; reflexivity.
  - (* the deferred wg.Wait() *)
    right; right. destruct HC as [_ ->].
    exists main. cbn. eexists; reflexivity.
Qed.

(** ** The earlier versions of Wait *)

(** In [readContext], which [wait] replaced, the function given to the
    poller did stop at once on a done context, without calling the
    function it wraps, here a counter and not an exit check. *)
Lemma readContext_fn_canceled {S : Type} (e : ctx_error)
    (fn : Z -> S -> bool * S) (fd : Z) (st : S) :
  readContext_fn (Some e) fn fd st = (true, st).
Proof. reflexivity. Qed.

Lemma readContext_fn_live {S : Type} (fn : Z -> S -> bool * S) (fd : Z) (st : S) :
  readContext_fn None fn fd st = fn fd st.
Proof. reflexivity. Qed.

(** The counter of that [Wait]: the second call of the function stops the
    poller, and a done context stops it without counting. *)
Example readContext_fn_counter :
  readContext_fn None Wait_fn 3 0 = (false, 1)
  /\ readContext_fn None Wait_fn 3 1 = (true, 2)
  /\ readContext_fn (Some Canceled) Wait_fn 3 0 = (true, 0).
Proof. repeat split. Qed.

(** [readContext] chose its result as [wait] does, without an exit check's
    error; the first [Wait] put the error of clearing the deadline before
    the context's.  [wait] is what [Wait] calls now. *)
Lemma earlier_returns (cerr rerr serr : option error) :
  readContext_return cerr rerr serr = first_error [cerr; rerr; None; serr]
  /\ (forall e, serr = Some e -> Wait_inline_return cerr serr = Some e)
  /\ (serr = None -> Wait_inline_return cerr serr = cerr).
Proof.
  unfold readContext_return, Wait_inline_return.
  destruct cerr, rerr, serr; cbn; repeat split; intros; congruence.
Qed.

(** * Further properties *)

(** ** Error values: what counts as not existing *)

Lemma errors_is_errno_root (e : error) (n : Z) :
  errors_is e (Errno n) = true <-> errors_root e = Errno n.
Proof.
  induction e as [m | s | syscall e IH | msg | fd pid | fd pid cause IH]
    using error_chain_ind.
  - rewrite errors_is_Errno. cbn. rewrite orb_false_r, Z.eqb_eq.
    split; congruence.
  - cbn. split; discriminate.
  - rewrite errors_is_SyscallError. exact IH.
  - cbn. split; discriminate.
  - cbn. split; discriminate.
  - rewrite errors_is_PidfdError. cbn. exact IH.
Qed.

(** X1.  [errors.Is(err, os.ErrNotExist)] is decided by the end of the chain
    of [err]: it holds when that is [os.ErrNotExist] itself or ENOENT, and
    when it is ESRCH provided a [*pidfd.Error] is in the chain.  ESRCH on
    its own is not [os.ErrNotExist]. *)
Theorem errors_Is_NotExist_iff (e : error) :
  errors_is e (Sentinel os_ErrNotExist) = true <->
  errors_root e = Sentinel os_ErrNotExist
  \/ errors_root e = Errno Unix.ENOENT
  \/ (errors_root e = Errno Unix.ESRCH /\ errors_As_Error e <> None).
Proof.
  induction e as [m | s | syscall e IH | msg | fd pid | fd pid cause IH]
    using error_chain_ind.
  - rewrite errors_is_Errno. cbn. rewrite Z.eqb_eq. unfold Unix.ENOENT.
    split; [intros ->; auto |].
    intros [H | [H | [_ H]]]; [discriminate | congruence | contradiction].
  - destruct s; cbn; split; try discriminate; auto;
      intros [H | [H | [H _]]]; discriminate.
  - rewrite errors_is_SyscallError. cbn. exact IH.
  - cbn. split; [discriminate |].
    intros [H | [H | [H _]]]; discriminate.
  - cbn. split; [discriminate |].
    intros [H | [H | [H _]]]; discriminate.
  - rewrite errors_is_PidfdError. unfold Error_Is, Error_Unwrap, errors_Is.
    cbn [Err errors_root errors_As_Error].
    rewrite orb_true_iff, IH.
    change (errors_is cause esrch = true)
      with (errors_is cause (Errno Unix.ESRCH) = true).
    rewrite errors_is_errno_root.
    split.
    + intros [H | [H | [H | [H _]]]]; auto.
      * right; right. split; [exact H | discriminate].
      * right; right. split; [exact H | discriminate].
    + intros [H | [H | [H _]]]; auto.
Qed.

(** ** wrap and sendSignal: what comes back *)

Lemma Error_Is_true (e : Error) (target : error) :
  Error_Is e target = true <->
  target = Sentinel os_ErrNotExist /\ errors_Is (Err e) (Some esrch) = true.
Proof.
  destruct target as [n | [] | ? ? | ? | ?]; cbn;
    split; try discriminate; try (intros [H _]; discriminate).
  - intros H. split; [reflexivity | exact H].
  - intros [_ H]. exact H.
Qed.

(** X2.  Wrapping hides no classification and adds one: the error [wrap]
    makes matches a target exactly when its cause does, or when the target
    is [os.ErrNotExist] and the cause is or wraps ESRCH.  [errors.As] finds
    the [Error] in it, with the handle's pid and the cause. *)
Theorem wrap_keeps_classification (f : File) (cause target : error) :
  (errors_Is (wrap f (Some cause)) (Some target) = true <->
   errors_is cause target = true
   \/ (target = Sentinel os_ErrNotExist /\ errors_is cause esrch = true))
  /\ (exists e : Error,
      wrap f (Some cause) = Some (PidfdError e)
      /\ errors_As_Error (PidfdError e) = Some e
      /\ PID e = pid f /\ Error_Unwrap e = Some cause).
Proof.
  unfold wrap. split.
  - cbn [errors_Is]. rewrite errors_is_PidfdError, orb_true_iff, Error_Is_true.
    unfold Error_Unwrap, errors_Is. cbn [Err]. tauto.
  - eexists. repeat split.
Qed.

(** X3.  Whatever the kernel answers and whether or not the descriptor is
    open, an error [SendSignal] returns for a [unix.Signal] on a handle
    [Open] gave is an [Error] with the pid [Open] was called with; its
    descriptor number is the handle's, or 0 when the descriptor is closed;
    its cause is the [*os.SyscallError] of ["pidfd_send_signal"]. *)
Theorem Open_SendSignal_Error (env : opener) (kill : Z -> Z -> Z -> option Z)
    (p ssig : Z) (f : File) (err : error) :
  Open env p = inl f ->
  fst (SendSignal kill f (unix_Signal ssig)) = Some err ->
  exists (e : Error) (errno : Z),
    err = PidfdError e
    /\ PID e = p
    /\ FD e = (if closed (c f) then 0 else sysfd (c f))
    /\ Err e = Some (SyscallError "pidfd_send_signal" (Errno errno))
    /\ (closed (c f) = false -> kill (sysfd (c f)) ssig 0 = Some errno)
    /\ (closed (c f) = true -> errno = Unix.EBADF).
Proof.
  intros Hopen Hsend.
  assert (Hpid : pid f = p).
  { unfold Open, open in Hopen.
    destruct (unix_PidfdOpen env p Unix.PIDFD_NONBLOCK) as [fd | ?];
      [| discriminate].
    destruct (socket_New env fd "pidfd") as [c0 | ?]; [| discriminate].
    destruct (SyscallConn env c0); [discriminate |].
    injection Hopen as <-. reflexivity. }
  unfold SendSignal, sendSignal, PidfdSendSignal, wrap, Control in Hsend.
  destruct (closed (c f)) eqn:Hcl; cbn in Hsend.
  - injection Hsend as <-. eexists; exists Unix.EBADF.
    cbn. repeat split; auto. discriminate.
  - destruct (kill (sysfd (c f)) ssig 0) as [errno |] eqn:Hk; cbn in Hsend;
      [| discriminate].
    injection Hsend as <-. eexists; exists errno.
    cbn. repeat split; auto. discriminate.
Qed.

Lemma Open_SendSignal_Error_witness :
  exists (e : Error) (errno : Z),
    PidfdError
      (mkError 3 1 (Some (SyscallError "pidfd_send_signal" (Errno Unix.EPERM))))
    = PidfdError e
    /\ PID e = 1
    /\ FD e = 3
    /\ Err e = Some (SyscallError "pidfd_send_signal" (Errno errno)).
Proof.
  destruct (Open_SendSignal_Error two_processes unprivileged 1 Unix.SIGUSR2
              init_File _ eq_refl eq_refl)
    as (e & errno & H1 & H2 & H3 & H4 & _).
  exists e, errno. auto.
Defined.

(** ** wait: what its variables record *)

Lemma Waitid_answers (k0 : kernel) (fd : Z) :
  let answer :=
    fst (Waitid k0 Unix.P_PIDFD fd (Z.lor Unix.WEXITED Unix.WNOWAIT)) in
  (answer = None /\ target k0 = Zombie /\ child k0 = true)
  \/ answer = Some (Errno Unix.EAGAIN)
  \/ answer = Some (Errno Unix.ECHILD).
Proof.
  cbn zeta. rewrite Waitid_WEXITED_WNOWAIT.
  destruct (child k0), (target k0); cbn; auto.
Qed.

Lemma recorded_step (a : action) (s s' : state) :
  recorded s -> step a s = Some s' -> recorded s'.
Proof.
  unfold recorded. intros HP H.
  step_cases H; cbn in *.
  all: try match goal with
           | Hs : negb (is_errno ?ans Unix.EAGAIN) = _ |- _ =>
               let Ha := fresh "Ha" in
               match ans with
               | fst (Waitid ?k1 _ ?fd _) =>
                   pose proof (Waitid_answers k1 fd) as Ha; cbn zeta in Ha;
                   change (Z.lor Unix.WEXITED Unix.WNOWAIT) with 16777220 in Ha;
                   destruct Ha as [(Ha & ? & ?) | [Ha | Ha]];
                   rewrite Ha in *; cbn in Hs; try discriminate Hs; cbn in *
               end
           end.
  all: finish.
  all: try solve [right; eexists; split; [reflexivity | discriminate]].
Qed.

Lemma recorded_reaches (f : File) (k0 : kernel) (cx : option ctx_error)
    (sched : list action) (s : state) :
  wait f k0 cx sched = Some s -> recorded s.
Proof.
  apply (exec_preserves recorded recorded_step).
  unfold recorded, enter; cbn.
  repeat split; intros; auto; lia.
Qed.

(** The kernel changes under [wait] only when the process exits. *)
Lemma kernel_step (a : action) (s s' : state) :
  step a s = Some s' -> k s' = k s \/ a = exits.
Proof. intros H. step_cases H; cbn; auto. Qed.

Lemma kernel_origin (sched : list action) (s s' : state) :
  exec sched s = Some s' -> k s' = k s \/ In exits sched.
Proof.
  revert s. induction sched as [| a sched IH]; intros s H; cbn in H.
  - injection H as <-. auto.
  - destruct (step a s) as [s1 |] eqn:Hs; [| discriminate].
    destruct (IH s1 H) as [E | E]; cbn; auto.
    destruct (kernel_step a s s1 Hs) as [E1 | E1]; auto.
    left. congruence.
Qed.

(** X4.  [Wait] returns nil only for a process that has exited: a child of
    the caller that had exited before the call or exited during it, which
    the exit check was asked about at least once, and with a context that
    line 105 did not find done. *)
Theorem Wait_nil_means_exited (f : File) (k0 : kernel)
    (cx : option ctx_error) (sched : list action) (s : state) :
  Wait f k0 cx sched = Some s ->
  returned s = true ->
  ret s = None ->
  child k0 = true
  /\ (target k0 = Zombie \/ (target k0 = Running /\ In exits sched))
  /\ target (k s) = Zombie
  /\ existsb is_waitid (log s) = true
  /\ cerr s = None.
Proof.
  intros Hw Hret Hnil.
  destruct (wait_reaches _ _ _ _ _ Hw) as (_ & _ & HS & _ & HK & _).
  pose proof (recorded_reaches _ _ _ _ _ Hw) as (_ & _ & _ & HR & _).
  apply returned_line in Hret.
  unfold selected in HS. rewrite HS in Hnil by lia.
  apply first_error_priority in Hnil. destruct Hnil as (Hc & Hr & Hwe & _).
  destruct (HR ltac:(lia) Hr Hwe) as (Ht & Hch & Hlog).
  destruct HK as (Hch0 & _ & Hk).
  refine (conj _ (conj _ (conj Ht (conj Hlog Hc)))).
  - congruence.
  - destruct Hk as [Hk | [Hk _]]; [left; congruence |].
    right. split; [exact Hk |].
    destruct (kernel_origin _ _ _ Hw) as [E | E]; [| exact E].
    rewrite E in Ht. cbn in Ht. congruence.
Qed.

Lemma Wait_nil_means_exited_witness :
  exists s,
    Wait sleeper sleeping None
      ([run main; run main; run main; run main; run main; exits; ready]
         ++ main_then_watcher_tail) = Some s
    /\ ret s = None
    /\ target (k s) = Zombie
    /\ existsb is_waitid (log s) = true.
Proof.
  eexists. split; [vm_compute; reflexivity |].
  split; [reflexivity |].
  match goal with
  | |- target (k ?s) = _ /\ _ =>
      destruct (Wait_nil_means_exited sleeper sleeping None
                  ([run main; run main; run main; run main; run main; exits;
                    ready] ++ main_then_watcher_tail) s
                  ltac:(vm_compute; reflexivity) eq_refl eq_refl)
        as (_ & _ & Ht & Hl & _)
  end.
  split; [exact Ht | exact Hl].
Defined.

(** X5.  What [Wait] returns is nil, the error of the caller's context, the
    poller's refusal (a closed descriptor, a passed deadline) or the errno
    of the exit check, never EAGAIN; it is returned as it is.  Unlike [Open]
    and [SendSignal], [Wait] never returns an [Error]: [errors.As] finds
    none in what it returns. *)
Theorem Wait_returns_bare (f : File) (k0 : kernel)
    (cx : option ctx_error) (sched : list action) (s : state) :
  Wait f k0 cx sched = Some s ->
  returned s = true ->
  (ret s = None
   \/ (exists e, parent s = Some e /\ ret s = Some (ctx_Err e))
   \/ ret s = Some (Sentinel os_ErrClosed)
   \/ ret s = Some (Sentinel os_ErrDeadlineExceeded)
   \/ (exists n, n <> Unix.EAGAIN
                 /\ werr s = Some (Errno n) /\ ret s = Some (Errno n)))
  /\ bare (ret s)
  /\ (forall err, ret s = Some err -> errors_As_Error err = None)
  /\ (forall pe : Error, ret s <> Some (PidfdError pe)).
Proof.
  intros Hw Hret.
  destruct (wait_reaches _ _ _ _ _ Hw) as (_ & HX & HS & _).
  pose proof (recorded_reaches _ _ _ _ _ Hw) as (_ & Hr & Hwe & _ & Hse & _).
  apply returned_line in Hret.
  unfold selected in HS. specialize (HS ltac:(lia)).
  destruct HX as (_ & _ & _ & _ & _ & Hc).
  assert (Hrange :
    ret s = None
    \/ (exists e, parent s = Some e /\ ret s = Some (ctx_Err e))
    \/ ret s = Some (Sentinel os_ErrClosed)
    \/ ret s = Some (Sentinel os_ErrDeadlineExceeded)
    \/ (exists n, n <> Unix.EAGAIN
                  /\ werr s = Some (Errno n) /\ ret s = Some (Errno n))).
  { rewrite HS.
    destruct Hc as [-> | ->].
    - destruct Hr as [-> | [-> | ->]]; cbn; auto.
      destruct Hwe as [-> | (n & -> & Hn)]; cbn.
      + destruct Hse as [-> | ->]; auto.
      + right; right; right; right. exists n. auto.
    - destruct (parent s) as [e |] eqn:Hp; cbn.
      + right; left. exists e. auto.
      + destruct Hr as [-> | [-> | ->]]; cbn; auto.
        destruct Hwe as [-> | (n & -> & Hn)]; cbn.
        * destruct Hse as [-> | ->]; auto.
        * right; right; right; right. exists n. auto. }
  split; [exact Hrange |].
  destruct Hrange as [E | [(e & _ & E) | [E | [E | (n & _ & _ & E)]]]];
    rewrite E; cbn; try destruct e; cbn;
    repeat split; intros; try congruence;
    match goal with
    | H : Some _ = Some _ |- _ => injection H as <-; reflexivity
    end.
Qed.

Lemma Wait_returns_bare_witness :
  exists s,
    Wait sleeper stranger None main_then_watcher = Some s
    /\ ret s = Some (Errno Unix.ECHILD)
    /\ forall pe : Error, ret s <> Some (PidfdError pe).
Proof.
  eexists. split; [vm_compute; reflexivity |].
  split; [reflexivity |].
  exact (proj2 (proj2 (proj2
           (Wait_returns_bare sleeper stranger None main_then_watcher _
              ltac:(vm_compute; reflexivity) eq_refl)))).
Defined.

(** ** wait: a read deadline means a context that is done *)

Lemma forced_by_context_step (a : action) (s s' : state) :
  context_ok s /\ forced_by_context s -> step a s = Some s' ->
  context_ok s' /\ forced_by_context s'.
Proof.
  intros [HX HP] H. split; [exact (context_ok_step a s s' HX H) |].
  unfold context_ok, forced_by_context in *.
  step_cases H; cbn in *; try congruence;
    try match goal with
        | E : passed _ _ = true |- _ => apply passed_nonzero in E
        end.
  all: finish.
  all: try (destruct par; cbn in *; congruence).
  destruct par; cbn; [discriminate | intuition congruence].
Qed.

(** X6.  On a handle that had no read deadline when [Wait] was called, the
    poller gives up on a deadline only after the watcher set one, so only
    when the context is done: [Wait] then returns the context's error, and
    the poller's timeout (os.ErrDeadlineExceeded) never reaches the caller. *)
Theorem Wait_no_stray_timeout (f : File) (k0 : kernel)
    (cx : option ctx_error) (sched : list action) (s : state) :
  rdeadline (c f) = Time_zero ->
  Wait f k0 cx sched = Some s ->
  returned s = true ->
  ret s <> Some (Sentinel os_ErrDeadlineExceeded)
  /\ (rerr s = Some (Sentinel os_ErrDeadlineExceeded) ->
      exists e, parent s = Some e /\ ret s = Some (ctx_Err e)).
Proof.
  intros Hzero Hw Hret.
  destruct (wait_reaches _ _ _ _ _ Hw) as (_ & HX & HS & _).
  pose proof (recorded_reaches _ _ _ _ _ Hw) as (_ & Hr & Hwe & _ & Hse & _).
  assert (HF : context_ok s /\ forced_by_context s).
  { apply (exec_preserves (fun s => context_ok s /\ forced_by_context s)
             forced_by_context_step sched (enter f k0 cx) s); [| exact Hw].
    split.
    - exact (proj1 (proj2 (wait_reaches f k0 cx [] _ eq_refl))).
    - unfold forced_by_context, enter; cbn.
      repeat split; intros; try lia; congruence. }
  destruct HF as (_ & _ & _ & Hforced).
  apply returned_line in Hret.
  unfold selected in HS. specialize (HS ltac:(lia)).
  destruct HX as (_ & _ & _ & _ & _ & Hc).
  assert (Hdone : rerr s = Some (Sentinel os_ErrDeadlineExceeded) ->
                  exists e, parent s = Some e /\ ret s = Some (ctx_Err e)).
  { intros E. specialize (Hforced ltac:(lia) E).
    destruct Hc as [Hc | Hc]; [contradiction |].
    destruct (parent s) as [e |]; [| rewrite Hc in Hforced; contradiction].
    exists e. split; [reflexivity |]. rewrite HS, Hc. reflexivity. }
  split; [| exact Hdone].
  intros E.
  destruct Hr as [Hr | [Hr | Hr]].
  - rewrite HS, Hr in E.
    destruct Hc as [Hc | Hc]; rewrite Hc in E.
    + destruct Hwe as [Hwe | (n & Hwe & _)]; rewrite Hwe in E; cbn in E;
        [| discriminate].
      destruct Hse as [Hse | Hse]; rewrite Hse in E; discriminate.
    + destruct (parent s) as [[|] |]; cbn in E; try discriminate.
      destruct Hwe as [Hwe | (n & Hwe & _)]; rewrite Hwe in E; cbn in E;
        [| discriminate].
      destruct Hse as [Hse | Hse]; rewrite Hse in E; discriminate.
  - rewrite HS, Hr in E.
    destruct Hc as [Hc | Hc]; rewrite Hc in E; [discriminate |].
    destruct (parent s) as [[|] |]; cbn in E; discriminate.
  - destruct (Hdone Hr) as ([|] & _ & E'); rewrite E' in E; discriminate.
Qed.

Lemma Wait_no_stray_timeout_witness :
  exists s,
    Wait sleeper sleeping None canceled_while_parked = Some s
    /\ rerr s = Some (Sentinel os_ErrDeadlineExceeded)
    /\ ret s = Some (Sentinel context_Canceled)
    /\ ret s <> Some (Sentinel os_ErrDeadlineExceeded).
Proof.
  eexists. split; [vm_compute; reflexivity |].
  split; [reflexivity |]. split; [reflexivity |].
  exact (proj1 (Wait_no_stray_timeout sleeper sleeping None
                  canceled_while_parked _ eq_refl
                  ltac:(vm_compute; reflexivity) eq_refl)).
Defined.

(** ** wait: the system calls it makes *)

Lemma only_exit_checks_step (fd : Z) (a : action) (s s' : state) :
  only_exit_checks fd s -> step a s = Some s' -> only_exit_checks fd s'.
Proof.
  unfold only_exit_checks, exit_check. intros [Hfd HP] H.
  step_cases H; cbn in *; subst; auto.
Qed.

Lemma pending_step (a : action) (s s' : state) :
  step a s = Some s' ->
  (List.length (syscalls (log s')) + pending (mpc s')
   <= List.length (syscalls (log s)) + pending (mpc s)
      + (if is_ready a then 1 else 0))%nat.
Proof.
  intros H. step_cases H; cbn; lia.
Qed.

Lemma pending_exec (sched : list action) (s s' : state) :
  exec sched s = Some s' ->
  (List.length (syscalls (log s')) + pending (mpc s')
   <= List.length (syscalls (log s)) + pending (mpc s) + wakeups sched)%nat.
Proof.
  revert s. induction sched as [| a sched IH]; intros s H; cbn in H.
  - injection H as <-. unfold wakeups. cbn. lia.
  - destruct (step a s) as [s1 |] eqn:Hs; [| discriminate].
    pose proof (pending_step a s s1 Hs) as H1.
    pose proof (IH s1 H) as H2.
    unfold wakeups in *. cbn [filter].
    destruct (is_ready a); cbn [List.length]; lia.
Qed.

(** X7.  The only system call [Wait] makes is the exit check on the handle's
    descriptor, waitid(P_PIDFD, fd, WEXITED|WNOWAIT): once when [Read]
    begins and once more each time the runtime reports the descriptor
    readable, so [Wait] does not spin.  The process is never reaped by it:
    the kernel is left as it was but for the exit of the process, and an
    exit status that was there to collect is still there. *)
Theorem Wait_only_exit_checks (f : File) (k0 : kernel)
    (cx : option ctx_error) (sched : list action) (s : state) :
  Wait f k0 cx sched = Some s ->
  Forall (fun call => call = exit_check (sysfd (c f))) (syscalls (log s))
  /\ (List.length (syscalls (log s)) <= 1 + wakeups sched)%nat
  /\ (k s = k0 \/ (In exits sched /\ target k0 = Running
                   /\ k s = mkKernel Zombie (child k0) (now k0)))
  /\ (target k0 = Zombie -> child k0 = true ->
      fst (Waitid (k s) Unix.P_PIDFD (sysfd (c f)) Unix.WEXITED) = None).
Proof.
  intros Hw.
  destruct (wait_reaches _ _ _ _ _ Hw) as (_ & _ & _ & _ & HK & _).
  assert (HO : only_exit_checks (sysfd (c f)) s).
  { apply (exec_preserves _ (only_exit_checks_step (sysfd (c f)))
             sched (enter f k0 cx) s); [| exact Hw].
    unfold only_exit_checks, enter; cbn. split; [reflexivity | constructor]. }
  pose proof (pending_exec _ _ _ Hw) as HP. cbn in HP.
  destruct HK as (Hch & Hnow & Hk).
  refine (conj (proj2 HO) (conj _ (conj _ _))).
  - lia.
  - destruct Hk as [Hk | [Hr Hz]].
    + left. apply kernel_eq; assumption.
    + right. split; [| split; [exact Hr |]].
      * destruct (kernel_origin _ _ _ Hw) as [E | E]; [| exact E].
        rewrite E in Hz. cbn in Hz. congruence.
      * apply kernel_eq; cbn; assumption.
  - intros Hz Hc.
    assert (E : k s = k0).
    { destruct Hk as [Hk | [Hr _]]; [| congruence].
      apply kernel_eq; assumption. }
    rewrite E. unfold Waitid. rewrite Hz, Hc. reflexivity.
Qed.

Lemma Wait_only_exit_checks_witness :
  exists s,
    Wait sleeper sleeping None woken_twice = Some s
    /\ returned s = true
    /\ wakeups woken_twice = 2%nat
    /\ syscalls (log s) = [exit_check 3; exit_check 3; exit_check 3]
    /\ k s = mkKernel Zombie true (now sleeping)
    /\ (List.length (syscalls (log s)) <= 1 + wakeups woken_twice)%nat.
Proof.
  eexists. split; [vm_compute; reflexivity |].
  split; [reflexivity |]. split; [reflexivity |].
  split; [reflexivity |]. split; [reflexivity |].
  exact (proj1 (proj2 (Wait_only_exit_checks sleeper sleeping None woken_twice
                         _ ltac:(vm_compute; reflexivity)))).
Defined.

(** ** wait: it returns once the context is done *)

Lemma rank_step (a : action) (s s' : state) :
  control s -> is_run a = true -> step a s = Some s' ->
  (rank s' < rank s)%nat.
Proof.
  intros HC Ha H. unfold rank, control in *.
  step_cases H; try discriminate Ha; cbn in *; try lia.
  destruct HC as [-> _]. cbn. lia.
Qed.

Lemma rank_bound (s : state) : control s -> (rank s <= 16)%nat.
Proof.
  unfold rank, control.
  destruct (mpc s) as [| | | [| |] | | | | | | | |], (wpc s);
    cbn; intros [H1 H2]; try congruence; lia.
Qed.

Lemma rank_exec (more : list action) (s s' : state) :
  control s ->
  Forall (fun a => is_run a = true) more ->
  exec more s = Some s' ->
  (List.length more + rank s' <= rank s)%nat.
Proof.
  revert s. induction more as [| a more IH]; intros s HC HA H; cbn in H.
  - injection H as <-. cbn. lia.
  - destruct (step a s) as [s1 |] eqn:Hs; [| discriminate].
    inversion HA as [| ? ? Ha HA']; subst.
    pose proof (rank_step a s s1 HC Ha Hs).
    pose proof (IH s1 (control_step a s s1 HC Hs) HA' H).
    cbn [List.length]. lia.
Qed.

Lemma honoured_step (e0 : ctx_error) (a : action) (s s' : state) :
  context_ok s /\ honoured e0 s -> step a s = Some s' ->
  context_ok s' /\ honoured e0 s'.
Proof.
  intros [HX HP] H. split; [exact (context_ok_step a s s' HX H) |].
  unfold context_ok, honoured in *.
  step_cases H; cbn in *; try congruence.
  all: finish.
Qed.

(** A context that is done stays done. *)
Lemma parent_kept (e0 : ctx_error) (a : action) (s s' : state) :
  parent s = Some e0 -> step a s = Some s' -> parent s' = Some e0.
Proof.
  intros HP H. step_cases H; cbn in *; congruence.
Qed.

Lemma wait_snoc (f : File) (k0 : kernel) (cx : option ctx_error)
    (sched more : list action) (s : state) :
  wait f k0 cx sched = Some s ->
  wait f k0 cx (sched ++ more) = exec more s.
Proof.
  unfold wait. intros H. rewrite exec_app, H. reflexivity.
Qed.

(** From a state [wait] reaches with the caller's context done and the
    clock past [time.Unix(0, 1)], the goroutines can be run until [wait]
    has returned. *)
Lemma wait_completes (f : File) (k0 : kernel) (cx : option ctx_error)
    (e0 : ctx_error) (n : nat) :
  1 <= now k0 ->
  forall (sched : list action) (s : state),
    (rank s <= n)%nat ->
    wait f k0 cx sched = Some s ->
    parent s = Some e0 ->
    exists more s',
      Forall (fun a => is_run a = true) more
      /\ exec more s = Some s' /\ returned s' = true.
Proof.
  intros Hnow. induction n as [| n IH]; intros sched s Hrank Hw Hpar.
  all: destruct (wait_reaches _ _ _ _ _ Hw) as (HC & HX & _).
  all: destruct (wait_progress _ _ _ _ _ Hnow Hw)
         as [Hret | [[Hpark Hlive] | (g & s1 & Hs)]];
       [ exists [], s; repeat split; [constructor | exact Hret]
       | exfalso;
         destruct HX as (_ & Hfollow & _);
         rewrite Hpark in Hfollow; cbn in Hfollow;
         rewrite Hfollow in Hlive by lia; congruence
       | ].
  - pose proof (rank_step (run g) s s1 HC eq_refl Hs). lia.
  - pose proof (rank_step (run g) s s1 HC eq_refl Hs) as Hlt.
    destruct (IH (sched ++ [run g]) s1 ltac:(lia)) as (more & s' & HA & He & Hr).
    + rewrite (wait_snoc _ _ _ _ _ _ Hw). cbn [exec]. rewrite Hs. reflexivity.
    + exact (parent_kept _ _ _ _ Hpar Hs).
    + exists (run g :: more), s'.
      split; [constructor; [reflexivity | exact HA] |].
      split; [cbn [exec]; rewrite Hs; exact He | exact Hr].
Qed.

(** X8.  Once the caller's context is done, [Wait] returns without waiting
    for anything from outside: however the scheduler runs the two goroutines
    from there, after at most 16 of their steps (fewer the further the call
    has got) none is left to take, and as long as [Wait] has not returned
    one of them can take a step; so running them leads to the return.  When
    the context was done by line 105, what [Wait] returns is the context's
    error, whatever the process did. *)
Theorem Wait_returns_once_done (f : File) (k0 : kernel)
    (cx : option ctx_error) (sched : list action) (s : state)
    (e : ctx_error) :
  1 <= now k0 ->
  Wait f k0 cx sched = Some s ->
  parent s = Some e ->
  (rank s <= 16)%nat
  /\ (forall more s',
        Forall (fun a => is_run a = true) more ->
        Wait f k0 cx (sched ++ more) = Some s' ->
        (List.length more + rank s' <= rank s)%nat
        /\ (returned s' = true \/ can_step s'))
  /\ (exists more s',
        Forall (fun a => is_run a = true) more
        /\ Wait f k0 cx (sched ++ more) = Some s'
        /\ returned s' = true)
  /\ (line (mpc s) <= 105 ->
      forall more s',
        Wait f k0 cx (sched ++ more) = Some s' ->
        returned s' = true ->
        ret s' = Some (ctx_Err e)).
Proof.
  intros Hnow Hw Hpar. unfold Wait in *.
  destruct (wait_reaches _ _ _ _ _ Hw) as (HC & HX & _).
  refine (conj (rank_bound s HC) (conj _ (conj _ _))).
  - intros more s' HA Hw'.
    pose proof Hw' as He. rewrite (wait_snoc _ _ _ _ _ _ Hw) in He.
    split; [exact (rank_exec more s s' HC HA He) |].
    destruct (wait_progress _ _ _ _ _ Hnow Hw')
      as [Hret | [[Hpark Hlive] | Hstep]]; auto.
    exfalso.
    destruct (wait_reaches _ _ _ _ _ Hw') as (_ & (_ & Hfollow & _) & _).
    rewrite Hpark in Hfollow. cbn in Hfollow.
    rewrite Hfollow in Hlive by lia.
    assert (Hpar' : parent s' = Some e).
    { apply (exec_preserves (fun s => parent s = Some e)
               (parent_kept e) more s s' Hpar He). }
    congruence.
  - destruct (wait_completes f k0 cx e (rank s) Hnow sched s (le_n _) Hw Hpar)
      as (more & s' & HA & He & Hr).
    exists more, s'.
    rewrite (wait_snoc _ _ _ _ _ _ Hw). auto.
  - intros Hline more s' Hw' Hret.
    rewrite (wait_snoc _ _ _ _ _ _ Hw) in Hw'.
    assert (HH : context_ok s' /\ honoured e s').
    { apply (exec_preserves (fun s => context_ok s /\ honoured e s)
               (honoured_step e) more s s'); [| exact Hw'].
      split; [exact HX |]. split; [exact Hpar | intros; lia]. }
    assert (HS : selected s').
    { apply (exec_preserves selected selected_step more s s'); [| exact Hw'].
      destruct (wait_reaches _ _ _ _ _ Hw) as (_ & _ & HS & _). exact HS. }
    apply returned_line in Hret.
    destruct HH as (_ & _ & Hcerr).
    unfold selected in HS. rewrite HS, Hcerr by lia. reflexivity.
Qed.

Lemma Wait_returns_once_done_witness :
  exists s,
    Wait sleeper sleeping None parked_then_canceled = Some s
    /\ mpc s = L91 Park
    /\ (rank s <= 16)%nat
    /\ exists more s',
         Forall (fun a => is_run a = true) more
         /\ Wait sleeper sleeping None (parked_then_canceled ++ more) = Some s'
         /\ returned s' = true
         /\ ret s' = Some (Sentinel context_Canceled).
Proof.
  eexists. split; [vm_compute; reflexivity |].
  split; [reflexivity |].
  destruct (Wait_returns_once_done sleeper sleeping None parked_then_canceled
              _ Canceled ltac:(unfold sleeping; cbn; lia)
              ltac:(vm_compute; reflexivity) eq_refl)
    as (Hb & _ & (more & s' & HA & Hw & Hr) & Hret).
  split; [exact Hb |].
  exists more, s'.
  split; [exact HA |]. split; [exact Hw |]. split; [exact Hr |].
  exact (Hret ltac:(cbn; lia) more s' Hw Hr).
Defined.

(** ** wait: under a context that never ends *)

Lemma live_step (a : action) (s s' : state) :
  (forall e, a <> done e) ->
  live s -> step a s = Some s' -> live s'.
Proof.
  intros Ha HP H.
  unfold live in *.
  step_cases H; cbn in *; try congruence;
    try (exfalso; eapply Ha; reflexivity).
  all: prune.
  all: try match goal with
           | E : passed _ _ = true |- _ => apply passed_nonzero in E
           end.
  all: try match goal with
           | Hs : negb (is_errno (fst (Waitid ?k1 _ ?fd _)) _) = _,
             Hc : child ?k1 = true |- _ =>
               let Hq := fresh "Hq" in
               pose proof (Waitid_WEXITED_WNOWAIT k1 fd) as Hq;
               change (Z.lor Unix.WEXITED Unix.WNOWAIT) with 16777220 in Hq;
               rewrite Hq, Hc in *; clear Hq;
               destruct (target k1) eqn:?; cbn in *
           end.
  all: try discriminate.
  all: try congruence.
  all: finish.
Qed.

(** X9.  Under a context that never ends, [Wait] on a child of the caller
    (handle open, no deadline left on it) waits for the exit: [Read] returns
    only once the process has exited, and while the process runs a parked
    [Read] stays parked; a call that returns returns nil and leaves the
    descriptor as it found it. *)
Theorem Wait_blocks_until_exit (f : File) (k0 : kernel)
    (sched : list action) (s : state) :
  Wait f k0 None sched = Some s ->
  (forall e, ~ In (done e) sched) ->
  child k0 = true -> target k0 <> Reaped ->
  closed (c f) = false -> rdeadline (c f) = Time_zero ->
  (105 <= line (mpc s) ->
   target (k s) = Zombie /\ (target k0 = Zombie \/ In exits sched))
  /\ (mpc s = L91 Park -> target (k s) = Running ->
      step (run main) s = None)
  /\ (returned s = true -> ret s = None /\ cn s = c f).
Proof.
  intros Hw Hsched Hc Ht Hopen Hzero.
  destruct (wait_reaches _ _ _ _ _ Hw) as (_ & _ & _ & HD & HK & _).
  assert (HF : Forall (fun a => forall e, a <> done e) sched).
  { apply Forall_forall. intros a Hin e ->. exact (Hsched e Hin). }
  pose proof (exec_preserves_on (fun a => forall e, a <> done e) live
                live_step sched (enter f k0 None) s HF) as HR.
  destruct HR as (_ & _ & _ & _ & _ & _ & _ & _ & Hearly & Hexit & Hr).
  { unfold live, enter; cbn.
    repeat split; auto; intros; try lia; discriminate. }
  { exact Hw. }
  refine (conj _ (conj _ _)).
  - intros Hline. specialize (Hexit Hline). split; [exact Hexit |].
    destruct (kernel_origin _ _ _ Hw) as [E | E]; [| right; exact E].
    left. rewrite E in Hexit. exact Hexit.
  - intros Hpc _.
    rewrite Hpc in Hearly. destruct (Hearly ltac:(cbn; lia)) as (_ & Hd & _).
    destruct s as [k1 cn1 par ctx1 n pc w re we ce se rt lg]; cbn in *.
    subst pc. cbn. rewrite Hd. reflexivity.
  - intros Hret. apply returned_line in Hret.
    split; [apply Hr; lia |].
    destruct HD as (Hfd & Hcl & _ & Hdl).
    apply Conn_eq; auto. rewrite Hzero. apply Hdl; [exact Hopen | lia].
Qed.

Lemma Wait_blocks_until_exit_witness :
  exists s,
    Wait sleeper sleeping None woken_twice = Some s
    /\ returned s = true
    /\ ret s = None
    /\ target (k s) = Zombie.
Proof.
  eexists. split; [vm_compute; reflexivity |].
  split; [reflexivity |].
  destruct (Wait_blocks_until_exit sleeper sleeping woken_twice _
              ltac:(vm_compute; reflexivity)
              ltac:(intros e H; cbn in H; intuition discriminate)
              eq_refl ltac:(discriminate) eq_refl eq_refl)
    as (Hexit & _ & Hr).
  split; [exact (proj1 (Hr eq_refl)) |].
  exact (proj1 (Hexit ltac:(cbn; lia))).
Defined.

(** ** wait: it returns once the process has exited *)

Lemma line_step (a : action) (s s' : state) :
  step a s = Some s' -> line (mpc s) <= line (mpc s').
Proof. intros H. step_cases H; cbn; lia. Qed.

(** The exit check of a process that does not run is not EAGAIN. *)
Lemma exited_not_EAGAIN (k0 : kernel) (fd : Z) :
  target k0 <> Running ->
  is_errno (fst (Waitid k0 Unix.P_PIDFD fd (Z.lor Unix.WEXITED Unix.WNOWAIT)))
    Unix.EAGAIN = false.
Proof.
  intros Ht. rewrite Waitid_WEXITED_WNOWAIT.
  destruct (child k0), (target k0); cbn; congruence.
Qed.

(** A parked [Read] that is woken once the process has exited calls the
    function, which stops it. *)
Lemma woken_leaves_Read (s : state) :
  mpc s = L91 Park -> target (k s) <> Running ->
  exists s',
    exec [ready; run main] s = Some s'
    /\ mpc s' = L105 /\ wpc s' = wpc s /\ k s' = k s /\ parent s' = parent s.
Proof.
  intros Hpc Ht.
  destruct s as [k1 cn1 par ctx1 n pc w re we ce se rt lg]; cbn in *.
  subst pc. cbn. rewrite wait_fn_eq.
  rewrite (exited_not_EAGAIN k1 (sysfd cn1) Ht). cbn.
  eexists. repeat split.
Qed.

Lemma wait_completes_exited (f : File) (k0 : kernel) (cx : option ctx_error)
    (n : nat) :
  1 <= now k0 ->
  forall (sched : list action) (s : state),
    (rank s <= n)%nat ->
    wait f k0 cx sched = Some s ->
    target (k s) <> Running ->
    exists more s',
      Forall (fun a => is_run a = true \/ a = ready) more
      /\ (wakeups more <= (if (105 <=? line (mpc s))%Z then 0 else 1))%nat
      /\ (List.length more <= rank s + wakeups more)%nat
      /\ exec more s = Some s' /\ returned s' = true
      /\ k s' = k s /\ parent s' = parent s.
Proof.
  intros Hnow. induction n as [| n IH]; intros sched s Hrank Hw Ht.
  all: destruct (wait_reaches _ _ _ _ _ Hw) as (HC & _).
  all: destruct (wait_progress _ _ _ _ _ Hnow Hw)
         as [Hret | [[Hpark Hlive] | (g & s1 & Hs)]];
       [ exists [], s; unfold wakeups; cbn;
         repeat split; [constructor | lia | lia | exact Hret]
       | | ].
  - unfold rank in Hrank. rewrite Hpark in Hrank. cbn in Hrank. lia.
  - pose proof (rank_step (run g) s s1 HC eq_refl Hs). lia.
  - destruct (woken_leaves_Read s Hpark Ht) as (s2 & He2 & Hpc2 & Hw2 & Hk2 & Hp2).
    destruct (IH (sched ++ [ready; run main]) s2) as
      (more & s' & HA & Hwk & Hlen & He & Hr & Hk & Hp).
    + unfold rank in *. rewrite Hpc2, Hw2. rewrite Hpark in Hrank.
      cbn in *. lia.
    + rewrite (wait_snoc _ _ _ _ _ _ Hw). exact He2.
    + congruence.
    + exists (ready :: run main :: more), s'.
      rewrite Hpc2 in Hwk. cbn in Hwk.
      refine (conj _ (conj _ (conj _ (conj _ (conj Hr (conj _ _)))))).
      * constructor; [right; reflexivity |].
        constructor; [left; reflexivity | exact HA].
      * rewrite Hpark. unfold wakeups in *. cbn in *. lia.
      * unfold rank, wakeups in *. rewrite Hpc2, Hw2 in Hlen.
        rewrite Hpark. cbn in *. lia.
      * change (ready :: run main :: more) with ([ready; run main] ++ more).
        rewrite exec_app, He2. exact He.
      * congruence.
      * congruence.
  - pose proof (rank_step (run g) s s1 HC eq_refl Hs) as Hlt.
    pose proof (line_step _ _ _ Hs) as Hline.
    assert (Hk1 : k s1 = k s).
    { destruct (kernel_step _ _ _ Hs) as [E | E]; [exact E | discriminate]. }
    assert (Hp1 : parent s1 = parent s).
    { destruct (parent_step _ _ _ Hs) as [E | [[E _] | E]];
        [exact E | discriminate | discriminate]. }
    destruct (IH (sched ++ [run g]) s1 ltac:(lia)) as
      (more & s' & HA & Hwk & Hlen & He & Hr & Hk & Hp).
    + rewrite (wait_snoc _ _ _ _ _ _ Hw). cbn [exec]. rewrite Hs. reflexivity.
    + congruence.
    + exists (run g :: more), s'.
      refine (conj _ (conj _ (conj _ (conj _ (conj Hr (conj _ _)))))).
      * constructor; [left; reflexivity | exact HA].
      * unfold wakeups in *. cbn [filter is_ready].
        destruct (105 <=? line (mpc s)) eqn:E1;
          destruct (105 <=? line (mpc s1)) eqn:E2; lia.
      * unfold wakeups in *. cbn [filter is_ready List.length]. lia.
      * cbn [exec]. rewrite Hs. exact He.
      * congruence.
      * congruence.
Qed.

(** X10.  Once the process has exited, [Wait] can return whatever state the
    call is in: the goroutines can be run to the return in at most 17 steps,
    with at most one report from the runtime that the descriptor is readable
    (for a [Read] that is parked), and neither the kernel nor the caller's
    context changes on the way. *)
Theorem Wait_returns_once_exited (f : File) (k0 : kernel)
    (cx : option ctx_error) (sched : list action) (s : state) :
  1 <= now k0 ->
  Wait f k0 cx sched = Some s ->
  target (k s) <> Running ->
  exists more s',
    Forall (fun a => is_run a = true \/ a = ready) more
    /\ (wakeups more <= 1)%nat
    /\ (List.length more <= 17)%nat
    /\ Wait f k0 cx (sched ++ more) = Some s'
    /\ returned s' = true
    /\ k s' = k s /\ parent s' = parent s.
Proof.
  intros Hnow Hw Ht. unfold Wait in *.
  destruct (wait_reaches _ _ _ _ _ Hw) as (HC & _).
  destruct (wait_completes_exited f k0 cx (rank s) Hnow sched s (le_n _) Hw Ht)
    as (more & s' & HA & Hwk & Hlen & He & Hr & Hk & Hp).
  pose proof (rank_bound s HC) as Hb.
  exists more, s'.
  refine (conj HA (conj _ (conj _ (conj _ (conj Hr (conj Hk Hp)))))).
  - destruct (105 <=? line (mpc s)); lia.
  - destruct (105 <=? line (mpc s)); lia.
  - rewrite (wait_snoc _ _ _ _ _ _ Hw). exact He.
Qed.

Lemma Wait_returns_once_exited_witness :
  exists s,
    Wait sleeper sleeping None parked_then_exited = Some s
    /\ mpc s = L91 Park
    /\ exists more s',
         (wakeups more <= 1)%nat
         /\ Wait sleeper sleeping None (parked_then_exited ++ more) = Some s'
         /\ returned s' = true.
Proof.
  eexists. split; [vm_compute; reflexivity |].
  split; [reflexivity |].
  destruct (Wait_returns_once_exited sleeper sleeping None parked_then_exited
              _ ltac:(unfold sleeping; cbn; lia)
              ltac:(vm_compute; reflexivity) ltac:(discriminate))
    as (more & s' & _ & Hwk & _ & Hw & Hr & _).
  exists more, s'. split; [exact Hwk |]. split; [exact Hw | exact Hr].
Defined.
